(** * A tiny REST key-value server (AppliedGo/rest), embedded in Rocq

    The repository holds two versions of the same server:

    - [rest.go]: the store is a struct [s] with a map [data] and a
      [sync.RWMutex] [m]; the handlers take the lock around every access
      of the map (module [Rest]);
    - an earlier, lock-free version whose store is the bare global map
      [data] (module [NoLock]).

    Both handlers are written once, as programs over the primitive
    actions of the shared store (lock operations and map accesses), and
    are given two semantics: [exec] runs one handler to completion
    (sequential requests), [step] lets the goroutines of a pool take one
    action at a time (concurrent requests).

    From the libraries the handlers call, the file models what they use:
    [Fprintf] with the verbs [%s] and [%v] (a map prints as
    [map[k1:v1 k2:v2]], keys in increasing order), [Params.ByName], the
    response writer, and the contract of [sync.RWMutex]. *)

From Stdlib Require Import String Ascii List Bool Arith Lia.
From stdpp Require Import base option list gmap strings fin_maps.
Import ListNotations.

Local Open Scope string_scope.
Local Open Scope list_scope.

(** ** Package [fmt]: the part of [Fprintf] the server uses *)

Module fmt.

(** An operand of a formatting call: the handlers print strings and the
    whole map. *)
Inductive arg : Type :=
| AString (s : string)
| AMap (m : gmap string string).

(** Insertion of an entry into a list of entries ordered by key.  [fmt]
    prints the keys of a map in increasing order; strings compare byte
    by byte. *)
Fixpoint insertKey (e : string * string) (l : list (string * string))
  : list (string * string) :=
  match l with
  | [] => [e]
  | e' :: l' =>
      if String.leb (fst e) (fst e') then e :: e' :: l'
      else e' :: insertKey e l'
  end.

Definition sortKeys (l : list (string * string)) : list (string * string) :=
  foldr insertKey [] l.

Definition printEntry (e : string * string) : string :=
  fst e +:+ ":" +:+ snd e.

(** Entries separated by one space. *)
Fixpoint joinEntries (l : list (string * string)) : string :=
  match l with
  | [] => ""
  | [e] => printEntry e
  | e :: l' => printEntry e +:+ " " +:+ joinEntries l'
  end.

(** [%v] of a [map[string]string]: [map[k1:v1 k2:v2]]. *)
Definition printMap (m : gmap string string) : string :=
  "map[" +:+ joinEntries (sortKeys (map_to_list m)) +:+ "]".

Definition typeName (a : arg) : string :=
  match a with
  | AString _ => "string"
  | AMap _ => "map[string]string"
  end.

Definition printValue (a : arg) : string :=
  match a with
  | AString s => s
  | AMap m => printMap m
  end.

(** One operand under one verb.  [%s] and [%v] print a string as it is
    and a map of strings entry by entry; any other verb is reported the
    way [fmt] reports a bad verb. *)
Definition printArg (verb : ascii) (a : arg) : string :=
  if (Ascii.eqb verb "s" || Ascii.eqb verb "v")%bool then printValue a
  else "%!" +:+ String verb ("(" +:+ typeName a +:+ "=" +:+ printValue a +:+ ")").

Fixpoint extraArgs (a : list arg) : string :=
  match a with
  | [] => ""
  | [x] => typeName x +:+ "=" +:+ printValue x
  | x :: a' => typeName x +:+ "=" +:+ printValue x +:+ ", " +:+ extraArgs a'
  end.

Definition reportExtra (a : list arg) : string :=
  match a with
  | [] => ""
  | _ => "%!(EXTRA " +:+ extraArgs a +:+ ")"
  end.

(** The format string is copied up to each [%]; the verb after it
    consumes the next operand.  No flags, widths or precisions: the
    server's format strings have none. *)
Fixpoint Sprintf (format : string) (a : list arg) : string :=
  match format with
  | EmptyString => reportExtra a
  | String c rest =>
      if Ascii.eqb c "%" then
        match rest with
        | EmptyString => "%!(NOVERB)" +:+ reportExtra a
        | String verb rest' =>
            if Ascii.eqb verb "%" then String "%" (Sprintf rest' a)
            else
              match a with
              | [] => "%!" +:+ String verb ("(MISSING)" +:+ Sprintf rest' [])
              | x :: a' => printArg verb x +:+ Sprintf rest' a'
              end
        end
      else String c (Sprintf rest a)
  end.

End fmt.

(** ** Package [net/http]: request and response writer *)

Module http.

(** The handlers receive the request but never look at it; the fields
    are the ones a client controls. *)
Record Request : Type := mkRequest {
  Method : string;
  URL : string;
  Header : list (string * list string);
  Body : string
}.

(** A response in the making: the status line (0 until the header is
    written) and the bytes of the body written so far. *)
Record ResponseWriter : Type := mkResponseWriter {
  status : nat;
  body : string
}.

Definition StatusOK : nat := 200.

(** The writer the server hands to a handler: nothing written yet. *)
Definition newResponse : ResponseWriter :=
  {| status := 0; body := "" |}.

(** [w.Write(b)]: the first write sends the header with status 200. *)
Definition Write (w : ResponseWriter) (b : string) : ResponseWriter :=
  {| status := if Nat.eqb (status w) 0 then StatusOK else status w;
     body := body w +:+ b |}.

End http.

(** [fmt.Fprintf(w, format, a...)] formats and writes to [w]. *)
Definition Fprintf (w : http.ResponseWriter) (format : string) (a : list fmt.arg)
  : http.ResponseWriter :=
  http.Write w (fmt.Sprintf format a).

(** ** Package [httprouter]: path parameters *)

Module httprouter.

Record Param : Type := mkParam { Key : string; Value : string }.

Definition Params : Type := list Param.

(** The value of the first parameter whose key is [name], the empty
    string when there is none. *)
Fixpoint ByName (ps : Params) (name : string) : string :=
  match ps with
  | [] => ""
  | p :: ps' => if String.eqb (Key p) name then Value p else ByName ps' name
  end.

End httprouter.

(** ** Package [sync]: the reader/writer mutex *)

Module sync.

(** Who holds the mutex: one writer, or a number of readers. *)
Record RWMutex : Type := mkRWMutex {
  writer : bool;
  readers : nat
}.

(** The zero value is an unlocked mutex. *)
Definition zero : RWMutex := {| writer := false; readers := 0 |}.

End sync.

(** ** The store and the programs that act on it *)

(** [type store struct { data map[string]string; m sync.RWMutex }].  The
    lock-free version has the map alone, as the global [data]; it runs on
    the same record and never touches [m]. *)
Record store : Type := mkStore {
  data : gmap string string;
  m : sync.RWMutex
}.

(** The store as [main] finds it: an empty map, an unlocked mutex. *)
Definition s_init : store := {| data := ∅; m := sync.zero |}.

Definition unlocked (s : store) : Prop := m s = sync.zero.

Global Instance unlocked_dec s : Decision (unlocked s).
Proof. unfold unlocked. solve_decision. Defined.

(** What running a piece of code yields: a result, a goroutine that has
    to wait for the mutex, or a fatal error of the runtime. *)
Inductive outcome (A : Type) : Type :=
| Done (a : A)
| Blocked
| Fatal (msg : string).
Arguments Done {A} a.
Arguments Blocked {A}.
Arguments Fatal {A} msg.

(** The primitive actions of a handler on the shared store, indexed by
    the type of their result. *)
Inductive action : Type -> Type :=
| Lock : action unit                          (* s.m.Lock() *)
| Unlock : action unit                        (* s.m.Unlock() *)
| RLock : action unit                         (* s.m.RLock() *)
| RUnlock : action unit                       (* s.m.RUnlock() *)
| MapIndex (k : string) : action string       (* s.data[k] *)
| MapRange : action (gmap string string)      (* all of s.data, as %v reads it *)
| MapAssign (k v : string) : action unit.     (* s.data[k] = v *)

Definition setM (s : store) (mu : sync.RWMutex) : store :=
  {| data := data s; m := mu |}.

Definition setData (s : store) (d : gmap string string) : store :=
  {| data := d; m := m s |}.

(** One action on the store.  [Lock] waits while anybody holds the
    mutex, [RLock] while a writer does; unlocking a mutex that is not
    locked is a fatal error.  (The real [RLock] also waits while a writer
    is waiting; that only removes schedules.)  Indexing a map with a
    missing key gives the zero value of the element type, the empty
    string. *)
Definition perform {X : Type} (a : action X) (s : store) : outcome (X * store) :=
  match a in action X return outcome (X * store) with
  | Lock =>
      if (sync.writer (m s) || negb (Nat.eqb (sync.readers (m s)) 0))%bool
      then Blocked
      else Done (tt, setM s {| sync.writer := true; sync.readers := 0 |})
  | Unlock =>
      if sync.writer (m s)
      then Done (tt, setM s {| sync.writer := false; sync.readers := sync.readers (m s) |})
      else Fatal "sync: Unlock of unlocked RWMutex"
  | RLock =>
      if sync.writer (m s) then Blocked
      else Done (tt, setM s {| sync.writer := false; sync.readers := S (sync.readers (m s)) |})
  | RUnlock =>
      match sync.readers (m s) with
      | O => Fatal "sync: RUnlock of unlocked RWMutex"
      | S n => Done (tt, setM s {| sync.writer := sync.writer (m s); sync.readers := n |})
      end
  | MapIndex k => Done (default "" (data s !! k), s)
  | MapRange => Done (data s, s)
  | MapAssign k v => Done (tt, setData s (<[k:=v]> (data s)))
  end.

(** A program: a result, or an action and what to do with its result. *)
Inductive prog (A : Type) : Type :=
| Ret (a : A)
| Act {X : Type} (a : action X) (k : X -> prog A).
Arguments Ret {A} a.
Arguments Act {A X} a k.

Fixpoint bind {A B : Type} (p : prog A) (f : A -> prog B) : prog B :=
  match p with
  | Ret a => f a
  | Act a k => Act a (fun x => bind (k x) f)
  end.

Definition act {X : Type} (a : action X) : prog X := Act a Ret.

Global Instance prog_ret : MRet prog := @Ret.
Global Instance prog_bind : MBind prog := fun A B f p => bind p f.

(** Running a program to its end, alone on the store. *)
Fixpoint exec {A : Type} (p : prog A) (s : store) : outcome (A * store) :=
  match p with
  | Ret a => Done (a, s)
  | Act a k =>
      match perform a s with
      | Done (x, s') => exec (k x) s'
      | Blocked => Blocked
      | Fatal msg => Fatal msg
      end
  end.

(** The type of a handler, [httprouter.Handle]. *)
Definition Handle : Type :=
  http.ResponseWriter -> http.Request -> httprouter.Params -> prog http.ResponseWriter.

(** ** The handlers of [rest.go] *)

Module Rest.

Definition show : Handle := fun w r p =>
  let k := httprouter.ByName p "key" in
  if String.eqb k "" then
    act RLock;;
    d ← act MapRange;
    let w := Fprintf w "Read list: %v" [fmt.AMap d] in
    act RUnlock;;
    mret w
  else
    act RLock;;
    x ← act (MapIndex k);
    let w := Fprintf w "Read entry: s.data[%s] = %s" [fmt.AString k; fmt.AString x] in
    act RUnlock;;
    mret w.

Definition update : Handle := fun w r p =>
  let k := httprouter.ByName p "key" in
  let v := httprouter.ByName p "value" in
  act Lock;;
  act (MapAssign k v);;
  act Unlock;;
  mret (Fprintf w "Updated: s.data[%s] = %s" [fmt.AString k; fmt.AString v]).

End Rest.

(** ** The handlers of the version without a lock *)

Module NoLock.

Definition show : Handle := fun w r p =>
  let k := httprouter.ByName p "key" in
  if String.eqb k "" then
    d ← act MapRange;
    mret (Fprintf w "Read list: %v" [fmt.AMap d])
  else
    x ← act (MapIndex k);
    mret (Fprintf w "Read entry: data[%s] = %s" [fmt.AString k; fmt.AString x]).

Definition update : Handle := fun w r p =>
  let k := httprouter.ByName p "key" in
  let v := httprouter.ByName p "value" in
  act (MapAssign k v);;
  x ← act (MapIndex k);
  mret (Fprintf w "Updated: data[%s] = %s" [fmt.AString k; fmt.AString x]).

End NoLock.

(** ** Requests served one after the other *)

(** The two handlers of one version of the server. *)
Record server : Type := mkServer {
  show : Handle;
  update : Handle
}.

Definition restServer : server :=
  {| show := Rest.show; update := Rest.update |}.

Definition noLockServer : server :=
  {| show := NoLock.show; update := NoLock.update |}.

(** A request as it reaches a handler: the router has chosen the handler
    and extracted the path parameters. *)
Inductive call : Type :=
| CallShow (r : http.Request) (p : httprouter.Params)
| CallUpdate (r : http.Request) (p : httprouter.Params).

(** A request as [curl] sends it: no headers, no body. *)
Definition curl (method url : string) : http.Request :=
  {| http.Method := method; http.URL := url; http.Header := []; http.Body := "" |}.

(** The routes [main] registers. *)
Definition getList (r : http.Request) : call :=
  CallShow r [].

Definition getEntry (r : http.Request) (key : string) : call :=
  CallShow r [httprouter.mkParam "key" key].

Definition putEntry (r : http.Request) (key value : string) : call :=
  CallUpdate r [httprouter.mkParam "key" key; httprouter.mkParam "value" value].

(** The handler runs on a response writer of its own. *)
Definition handle (srv : server) (c : call) : prog http.ResponseWriter :=
  match c with
  | CallShow r p => show srv http.newResponse r p
  | CallUpdate r p => update srv http.newResponse r p
  end.

(** The responses to a sequence of requests, and the store they leave. *)
Fixpoint serve (srv : server) (cs : list call) (s : store)
  : outcome (list http.ResponseWriter * store) :=
  match cs with
  | [] => Done ([], s)
  | c :: cs' =>
      match exec (handle srv c) s with
      | Done (w, s') =>
          match serve srv cs' s' with
          | Done (ws, s'') => Done (w :: ws, s'')
          | Blocked => Blocked
          | Fatal msg => Fatal msg
          end
      | Blocked => Blocked
      | Fatal msg => Fatal msg
      end
  end.

(** [c] is an update of key [k]. *)
Definition writes (k : string) (c : call) : bool :=
  match c with
  | CallShow _ _ => false
  | CallUpdate _ p => String.eqb (httprouter.ByName p "key") k
  end.

(** No request of [cs] updates key [k]. *)
Definition neverWrites (k : string) (cs : list call) : bool :=
  forallb (fun c => negb (writes k c)) cs.

(** ** Vocabulary of the properties *)

(** The body of the answer to a read of one entry, for the expression
    the version prints: [s.data] in [rest.go], [data] without the lock. *)
Definition readEntry (expr k v : string) : string :=
  "Read entry: " +:+ expr +:+ "[" +:+ k +:+ "] = " +:+ v.

Definition updated (expr k v : string) : string :=
  "Updated: " +:+ expr +:+ "[" +:+ k +:+ "] = " +:+ v.

Definition readList (d : gmap string string) : string :=
  "Read list: " +:+ fmt.printMap d.

(** [sub] occurs in [s]. *)
Definition contains (s sub : string) : Prop :=
  exists pre post : string, s = pre +:+ sub +:+ post.

(** The path parameters of a handler, read the way the handler does. *)
Definition keyOf (p : httprouter.Params) : string := httprouter.ByName p "key".
Definition valueOf (p : httprouter.Params) : string := httprouter.ByName p "value".

(** What [show] answers on a store holding [d]: the listing for the empty
    key, the entry otherwise. *)
Definition showBody (expr : string) (p : httprouter.Params) (d : gmap string string)
  : string :=
  if String.eqb (keyOf p) "" then readList d
  else readEntry expr (keyOf p) (default "" (d !! keyOf p)).

(** The map after a request, and after a sequence of requests. *)
Definition applyCall (d : gmap string string) (c : call) : gmap string string :=
  match c with
  | CallShow _ _ => d
  | CallUpdate _ p => <[keyOf p := valueOf p]> d
  end.

Definition applyCalls (cs : list call) (d : gmap string string) : gmap string string :=
  foldl applyCall d cs.

(** A server answers like the handlers of the source when, on every store
    that satisfies [ok], [show] answers [showBody] and leaves the store
    alone, and [update] answers [updated] and assigns the entry. *)
Record behaves (srv : server) (expr : string) (ok : store -> Prop) : Prop := {
  ok_setData : forall s d, ok s -> ok (setData s d);
  show_spec : forall w r p s, ok s ->
    exec (show srv w r p) s = Done (http.Write w (showBody expr p (data s)), s);
  update_spec : forall w r p s, ok s ->
    exec (update srv w r p) s
    = Done (http.Write w (updated expr (keyOf p) (valueOf p)),
            setData s (<[keyOf p := valueOf p]> (data s)))
}.

(** The body of the last response. *)
Definition lastBody (ws : list http.ResponseWriter) : option string :=
  http.body <$> last ws.

(** Read-back: the requests [pre], then the update [p], then the requests
    [mid], then the read [p'] are all served, and the read answers with
    the entry of the update, printed with [expr]. *)
Definition readsBack (srv : server) (expr : string) (pre mid : list call)
  (r : http.Request) (p : httprouter.Params)
  (r' : http.Request) (p' : httprouter.Params) : Prop :=
  exists ws s,
    serve srv (pre ++ CallUpdate r p :: mid ++ [CallShow r' p']) s_init = Done (ws, s)
    /\ lastBody ws = Some (readEntry expr (keyOf p) (valueOf p)).

(** Reading a key nobody wrote: the requests [cs] and then the read [p]
    are served, the key is absent from the store, and the read answers
    with the entry of an empty value, as it does once the key is stored
    with the empty value. *)
Definition readsAbsent (srv : server) (expr : string) (cs : list call)
  (r : http.Request) (p : httprouter.Params) : Prop :=
  let w := http.newResponse in
  exists ws s,
    serve srv cs s_init = Done (ws, s)
    /\ data s !! keyOf p = None
    /\ exec (show srv w r p) s = Done (http.Write w (readEntry expr (keyOf p) ""), s)
    /\ exec (show srv w r p) (setData s (<[keyOf p := ""]> (data s)))
       = Done (http.Write w (readEntry expr (keyOf p) ""),
               setData s (<[keyOf p := ""]> (data s))).

(** ** Requests served concurrently *)

(** The server runs every handler in a goroutine of its own.  A
    configuration is the shared store and, for each goroutine, what is
    left of its handler. *)
Record config : Type := mkConfig {
  shared : store;
  goroutines : list (prog http.ResponseWriter)
}.

(** One goroutine per request, each with a response writer of its own. *)
Definition spawn (srv : server) (cs : list call) (s : store) : config :=
  {| shared := s; goroutines := handle srv <$> cs |}.

(** Goroutine [i] performs its next action.  [Blocked]: it has to wait
    for the mutex, or has returned, or does not exist. *)
Definition step (i : nat) (c : config) : outcome config :=
  match goroutines c !! i with
  | None => Blocked
  | Some (Ret _) => Blocked
  | Some (Act a k) =>
      match perform a (shared c) with
      | Done (x, s') => Done {| shared := s'; goroutines := <[i := k x]> (goroutines c) |}
      | Blocked => Blocked
      | Fatal msg => Fatal msg
      end
  end.

(** The goroutines move in the order of the schedule. *)
Fixpoint run (sched : list nat) (c : config) : outcome config :=
  match sched with
  | [] => Done c
  | i :: sched' =>
      match step i c with
      | Done c' => run sched' c'
      | Blocked => Blocked
      | Fatal msg => Fatal msg
      end
  end.

Definition returned {A : Type} (p : prog A) : bool :=
  match p with
  | Ret _ => true
  | Act _ _ => false
  end.

(** Every handler has returned. *)
Definition finished (c : config) : bool := forallb returned (goroutines c).

(** How an action touches the map. *)
Inductive access : Type := Reads | Mutates.

Definition accessOf {X : Type} (a : action X) : option access :=
  match a with
  | MapIndex _ => Some Reads
  | MapRange => Some Reads
  | MapAssign _ _ => Some Mutates
  | _ => None
  end.

(** The access of the map a goroutine is about to make, if any. *)
Definition nextAccess {A : Type} (p : prog A) : option access :=
  match p with
  | Ret _ => None
  | Act a _ => accessOf a
  end.

(** Single writer, many readers: while a goroutine is at an assignment
    to the map, no other goroutine is at an access of the map, be it an
    assignment or a read. *)
Definition exclusive (c : config) : Prop :=
  forall i j ti tj,
    i <> j ->
    goroutines c !! i = Some ti -> goroutines c !! j = Some tj ->
    nextAccess ti = Some Mutates -> nextAccess tj = None.

(** The keys the updates among [cs] write. *)
Definition updateKeys (cs : list call) : list string :=
  omap (fun c => match c with
                 | CallShow _ _ => None
                 | CallUpdate _ p => Some (keyOf p)
                 end) cs.

(** *** The locking discipline *)

(** What a goroutine holds of the mutex. *)
Inductive mode : Type := Free | Reading | Writing.

Global Instance mode_eq_dec : EqDecision mode.
Proof. solve_decision. Defined.

(** The discipline: the map is read under the mutex, assigned under the
    write lock, and a goroutine unlocks what it has locked. *)
Definition after {X : Type} (h : mode) (a : action X) : option mode :=
  match a, h with
  | Lock, Free => Some Writing
  | Unlock, Writing => Some Free
  | RLock, Free => Some Reading
  | RUnlock, Reading => Some Free
  | MapIndex _, Reading => Some Reading
  | MapIndex _, Writing => Some Writing
  | MapRange, Reading => Some Reading
  | MapRange, Writing => Some Writing
  | MapAssign _ _, Writing => Some Writing
  | _, _ => None
  end.

(** A program follows the discipline from mode [h] on, and returns with
    nothing held. *)
Fixpoint follows {A : Type} (h : mode) (p : prog A) : Prop :=
  match p with
  | Ret _ => h = Free
  | Act a k =>
      match after h a with
      | Some h' => forall x, follows h' (k x)
      | None => False
      end
  end.

(** The entry an action assigns, if it is an assignment. *)
Definition assignment {X : Type} (a : action X) : option (string * string) :=
  match a with
  | MapAssign key v => Some (key, v)
  | _ => None
  end.

(** Every assignment a program may make satisfies [P]. *)
Fixpoint assigns {A : Type} (P : string -> string -> Prop) (p : prog A) : Prop :=
  match p with
  | Ret _ => True
  | Act a k =>
      match assignment a with
      | Some (key, v) => P key v
      | None => True
      end /\ forall x, assigns P (k x)
  end.

(** A program assigns [v] to [key] before it returns. *)
Fixpoint willAssign {A : Type} (key v : string) (p : prog A) : Prop :=
  match p with
  | Ret _ => False
  | Act a k => assignment a = Some (key, v) \/ forall x, willAssign key v (k x)
  end.

(** A program returns after at most [n] actions. *)
Fixpoint bounded {A : Type} (n : nat) (p : prog A) : Prop :=
  match p with
  | Ret _ => True
  | Act a k =>
      match n with
      | O => False
      | S n' => forall x, bounded n' (k x)
      end
  end.

(** The assignments request [c] is entitled to. *)
Definition allowed (c : call) (key v : string) : Prop :=
  match c with
  | CallShow _ _ => False
  | CallUpdate _ p => key = keyOf p /\ v = valueOf p
  end.

Definition total {A : Type} (f : A -> nat) (l : list A) : nat :=
  foldr (fun x n => f x + n) 0 l.

Definition holdsWrite (h : mode) : nat :=
  match h with Writing => 1 | _ => 0 end.

Definition holdsRead (h : mode) : nat :=
  match h with Reading => 1 | _ => 0 end.

(** The mutex agrees with what the goroutines hold: [hs] lists the mode
    of every goroutine. *)
Definition lockInv (hs : list mode) (c : config) : Prop :=
  Forall2 follows hs (goroutines c)
  /\ total holdsWrite hs = (if sync.writer (m (shared c)) then 1 else 0)
  /\ total holdsRead hs = sync.readers (m (shared c))
  /\ (sync.writer (m (shared c)) = true -> sync.readers (m (shared c)) = 0).

(** No write is lost: every goroutine assigns only what its request
    says, and the entry of an update is in the map unless the goroutine
    has yet to assign it. *)
Definition writesInv (cs : list call) (c : config) : Prop :=
  Forall2 (fun call t =>
    assigns (allowed call) t
    /\ forall r p, call = CallUpdate r p ->
         willAssign (keyOf p) (valueOf p) t
         \/ data (shared c) !! keyOf p = Some (valueOf p))
    cs (goroutines c).

(** The three invariants along a run. *)
Definition runInv (cs : list call) (budget : nat) (c : config) : Prop :=
  (exists hs, lockInv hs c)
  /\ writesInv cs c
  /\ exists ns, Forall2 bounded ns (goroutines c) /\ total id ns <= budget.

(** ** Vocabulary of the further properties *)

Definition isUpdate (c : call) : bool :=
  match c with
  | CallShow _ _ => false
  | CallUpdate _ _ => true
  end.

(** The answers of the two versions to one request: the same status, and
    the same body but for the expression printed, [s.data] or [data]. *)
Definition sameAnswer (w1 w2 : http.ResponseWriter) : Prop :=
  http.status w1 = http.status w2
  /\ (http.body w1 = http.body w2
      \/ exists pre post,
           http.body w1 = pre +:+ "s.data" +:+ post
           /\ http.body w2 = pre +:+ "data" +:+ post).

(** Every result a program may return satisfies [P]. *)
Fixpoint results {A : Type} (P : A -> Prop) (p : prog A) : Prop :=
  match p with
  | Ret a => P a
  | Act _ k => forall x, results P (k x)
  end.

(** The shape of the answer of [rest.go] to a request: an update answers
    with its own entry; a read with the listing of some map or, for a key
    that is not empty, with the entry of that key and some value. *)
Definition answerOf (c : call) (w : http.ResponseWriter) : Prop :=
  match c with
  | CallUpdate _ p =>
      w = http.Write http.newResponse (updated "s.data" (keyOf p) (valueOf p))
  | CallShow _ p =>
      if String.eqb (keyOf p) ""
      then exists d, w = http.Write http.newResponse (readList d)
      else exists x, w = http.Write http.newResponse (readEntry "s.data" (keyOf p) x)
  end.

(** Where the entries of the map come from, whatever the keys of the
    updates: every goroutine assigns only what its request says; the key
    of an update holds the value of an update of that key unless the
    goroutine has yet to assign; and every entry of the map was in the
    map [d0] the goroutines started from or is the entry of an update. *)
Definition originInv (cs : list call) (d0 : gmap string string) (c : config) : Prop :=
  Forall2 (fun call t =>
    assigns (allowed call) t
    /\ forall r p, call = CallUpdate r p ->
         willAssign (keyOf p) (valueOf p) t
         \/ exists r' p', In (CallUpdate r' p') cs /\ keyOf p' = keyOf p
                          /\ data (shared c) !! keyOf p = Some (valueOf p'))
    cs (goroutines c)
  /\ forall k v, data (shared c) !! k = Some v ->
       d0 !! k = Some v
       \/ exists r p, In (CallUpdate r p) cs /\ keyOf p = k /\ valueOf p = v.

(** The invariants of a pool of any requests. *)
Definition poolInv (cs : list call) (d0 : gmap string string) (budget : nat)
  (c : config) : Prop :=
  (exists hs, lockInv hs c)
  /\ originInv cs d0 c
  /\ Forall2 (fun call t => results (answerOf call) t) cs (goroutines c)
  /\ exists ns, Forall2 bounded ns (goroutines c) /\ total id ns <= budget.

(** *** Concurrent requests against requests in a row *)

(** The answer of [rest.go] to a request served alone on a store holding
    the map [d]. *)
Definition seqAnswer (c : call) (d : gmap string string) : http.ResponseWriter :=
  http.Write http.newResponse
    match c with
    | CallShow _ p => showBody "s.data" p d
    | CallUpdate _ p => updated "s.data" (keyOf p) (valueOf p)
    end.

(** The answers to requests served one after the other from [d]. *)
Fixpoint answers (cs : list call) (d : gmap string string)
  : list http.ResponseWriter :=
  match cs with
  | [] => []
  | c :: cs' => seqAnswer c d :: answers cs' (applyCall d c)
  end.

(** A program that is done with the map: it returns [w] without another
    access of the map. *)
Fixpoint quiet {A : Type} (w : A) (p : prog A) : Prop :=
  match p with
  | Ret a => a = w
  | Act a k => accessOf a = None /\ forall x, quiet w (k x)
  end.

(** A program that takes effect at one access of the map: up to there it
    only handles the mutex; the access changes the map by [eff]; and the
    program returns what [ans] gives for the map at the access, without
    another access. *)
Fixpoint linearizes {A : Type} (ans : gmap string string -> A)
  (eff : gmap string string -> gmap string string) (p : prog A) : Prop :=
  match p with
  | Ret _ => False
  | Act a k =>
      match accessOf a with
      | None => forall x, linearizes ans eff (k x)
      | Some _ =>
          forall s x s', perform a s = Done (x, s') ->
            data s' = eff (data s) /\ quiet (ans (data s)) (k x)
      end
  end.

(** The request of goroutine [i]. *)
Definition callAt (cs : list call) (i : nat) : call :=
  default (CallShow (curl "" "") []) (cs !! i).

(** [log] lists the goroutines that have made their access of the map,
    in the order of the accesses: the map is what their requests, served
    in that order, build from [d0], and each of them returns the answer
    it would give if served at its place in that order. *)
Definition linInv (cs : list call) (d0 : gmap string string) (log : list nat)
  (c : config) : Prop :=
  NoDup log
  /\ Forall (fun i => i < length cs) log
  /\ length (goroutines c) = length cs
  /\ data (shared c) = applyCalls (callAt cs <$> log) d0
  /\ forall i t, goroutines c !! i = Some t ->
       ((i ∉ log)
        /\ linearizes (seqAnswer (callAt cs i)) (fun d => applyCall d (callAt cs i)) t)
       \/ (exists n, log !! n = Some i
                     /\ quiet (seqAnswer (callAt cs i)
                                 (applyCalls (callAt cs <$> take n log) d0)) t).

(* ================================================================= *)
(** * Properties *)

(** ** Strings and formatting *)

Lemma append_empty_r (s : string) : s +:+ "" = s.
Proof.
  induction s as [|c s IH]; [reflexivity|].
  change (String c (s +:+ "") = String c s). now rewrite IH.
Qed.

Lemma append_assoc (a b c : string) : (a +:+ b) +:+ c = a +:+ b +:+ c.
Proof.
  induction a as [|x a IH]; [reflexivity|].
  change (String x ((a +:+ b) +:+ c) = String x (a +:+ b +:+ c)). now rewrite IH.
Qed.

Lemma Sprintf_read_entry_rest (k v : string) :
  fmt.Sprintf "Read entry: s.data[%s] = %s" [fmt.AString k; fmt.AString v]
  = readEntry "s.data" k v.
Proof.
  transitivity (readEntry "s.data" k (v +:+ "")); [reflexivity|].
  now rewrite append_empty_r.
Qed.

Lemma Sprintf_read_entry_nolock (k v : string) :
  fmt.Sprintf "Read entry: data[%s] = %s" [fmt.AString k; fmt.AString v]
  = readEntry "data" k v.
Proof.
  transitivity (readEntry "data" k (v +:+ "")); [reflexivity|].
  now rewrite append_empty_r.
Qed.

Lemma Sprintf_updated_rest (k v : string) :
  fmt.Sprintf "Updated: s.data[%s] = %s" [fmt.AString k; fmt.AString v]
  = updated "s.data" k v.
Proof.
  transitivity (updated "s.data" k (v +:+ "")); [reflexivity|].
  now rewrite append_empty_r.
Qed.

Lemma Sprintf_updated_nolock (k v : string) :
  fmt.Sprintf "Updated: data[%s] = %s" [fmt.AString k; fmt.AString v]
  = updated "data" k v.
Proof.
  transitivity (updated "data" k (v +:+ "")); [reflexivity|].
  now rewrite append_empty_r.
Qed.

Lemma Sprintf_read_list (d : gmap string string) :
  fmt.Sprintf "Read list: %v" [fmt.AMap d] = readList d.
Proof.
  transitivity ("Read list: " +:+ fmt.printMap d +:+ ""); [reflexivity|].
  now rewrite append_empty_r.
Qed.

(** ** One handler, run alone on the store *)

Ltac open_store s H :=
  destruct s as [? ?]; unfold unlocked in H; simpl in H; subst.

Lemma exec_rest_show_list w r p s :
  unlocked s -> keyOf p = "" ->
  exec (Rest.show w r p) s = Done (http.Write w (readList (data s)), s).
Proof.
  intros Hm Hk. unfold Rest.show. fold (keyOf p). rewrite Hk.
  open_store s Hm. cbn. unfold Fprintf. now rewrite Sprintf_read_list.
Qed.

Lemma exec_rest_show_entry w r p s :
  unlocked s -> keyOf p <> "" ->
  exec (Rest.show w r p) s
  = Done (http.Write w (readEntry "s.data" (keyOf p) (default "" (data s !! keyOf p))), s).
Proof.
  intros Hm Hk. unfold Rest.show. fold (keyOf p).
  destruct (String.eqb_spec (keyOf p) "") as [E|_]; [contradiction|].
  open_store s Hm. cbn. unfold Fprintf. now rewrite Sprintf_read_entry_rest.
Qed.

Lemma exec_rest_update w r p s :
  unlocked s ->
  exec (Rest.update w r p) s
  = Done (http.Write w (updated "s.data" (keyOf p) (valueOf p)),
          setData s (<[keyOf p := valueOf p]> (data s))).
Proof.
  intros Hm. unfold Rest.update. fold (keyOf p) (valueOf p).
  open_store s Hm. cbn. unfold Fprintf. now rewrite Sprintf_updated_rest.
Qed.

Lemma exec_nolock_show_list w r p s :
  keyOf p = "" ->
  exec (NoLock.show w r p) s = Done (http.Write w (readList (data s)), s).
Proof.
  intros Hk. unfold NoLock.show. fold (keyOf p). rewrite Hk.
  cbn. unfold Fprintf. now rewrite Sprintf_read_list.
Qed.

Lemma exec_nolock_show_entry w r p s :
  keyOf p <> "" ->
  exec (NoLock.show w r p) s
  = Done (http.Write w (readEntry "data" (keyOf p) (default "" (data s !! keyOf p))), s).
Proof.
  intros Hk. unfold NoLock.show. fold (keyOf p).
  destruct (String.eqb_spec (keyOf p) "") as [E|_]; [contradiction|].
  cbn. unfold Fprintf. now rewrite Sprintf_read_entry_nolock.
Qed.

Lemma exec_nolock_update w r p s :
  exec (NoLock.update w r p) s
  = Done (http.Write w (updated "data" (keyOf p) (valueOf p)),
          setData s (<[keyOf p := valueOf p]> (data s))).
Proof.
  unfold NoLock.update. fold (keyOf p) (valueOf p).
  cbn. rewrite lookup_insert_eq. cbn.
  unfold Fprintf. now rewrite Sprintf_updated_nolock.
Qed.

(** ** What both versions have in common *)

Lemma rest_behaves : behaves restServer "s.data" unlocked.
Proof.
  split.
  - intros s d H. exact H.
  - intros w r p s H. unfold showBody. simpl.
    destruct (String.eqb_spec (keyOf p) "") as [E|E].
    + now apply exec_rest_show_list.
    + now apply exec_rest_show_entry.
  - intros w r p s H. now apply exec_rest_update.
Qed.

Lemma nolock_behaves : behaves noLockServer "data" (fun _ => True).
Proof.
  split.
  - trivial.
  - intros w r p s _. unfold showBody. simpl.
    destruct (String.eqb_spec (keyOf p) "") as [E|E].
    + now apply exec_nolock_show_list.
    + now apply exec_nolock_show_entry.
  - intros w r p s _. apply exec_nolock_update.
Qed.

Lemma setData_setData s d d' : setData (setData s d) d' = setData s d'.
Proof. reflexivity. Qed.

Lemma setData_data s : setData s (data s) = s.
Proof. now destruct s. Qed.

Section History.
Context (srv : server) (expr : string) (ok : store -> Prop).
Hypothesis B : behaves srv expr ok.

Lemma exec_handle c s :
  ok s ->
  exists w, exec (handle srv c) s = Done (w, setData s (applyCall (data s) c)).
Proof.
  intros H. destruct c as [r p|r p]; simpl.
  - rewrite (show_spec _ _ _ B) by exact H. rewrite setData_data. eauto.
  - rewrite (update_spec _ _ _ B) by exact H. eauto.
Qed.

(** Every sequence of requests is served to the end; the store holds
    the map the updates build. *)
Lemma serve_spec cs : forall s,
  ok s ->
  exists ws, serve srv cs s = Done (ws, setData s (applyCalls cs (data s)))
             /\ length ws = length cs.
Proof.
  induction cs as [|c cs IH]; intros s H; simpl.
  - exists []. now rewrite setData_data.
  - destruct (exec_handle c s H) as [w ->].
    destruct (IH (setData s (applyCall (data s) c))) as (ws & -> & Hl).
    { now apply (ok_setData _ _ _ B). }
    exists (w :: ws). simpl. split; [reflexivity | now rewrite Hl].
Qed.

Lemma serve_app cs1 cs2 s ws1 s1 ws2 s2 :
  serve srv cs1 s = Done (ws1, s1) ->
  serve srv cs2 s1 = Done (ws2, s2) ->
  serve srv (cs1 ++ cs2) s = Done (ws1 ++ ws2, s2).
Proof.
  revert s ws1. induction cs1 as [|c cs1 IH]; intros s ws1 H1 H2; simpl in *.
  - now inversion H1; subst.
  - destruct (exec (handle srv c) s) as [[w s']| |]; try discriminate.
    destruct (serve srv cs1 s') as [[ws s'']| |] eqn:E; try discriminate.
    inversion H1; subst. now rewrite (IH _ _ E H2).
Qed.
End History.

Lemma applyCalls_app cs1 cs2 d :
  applyCalls (cs1 ++ cs2) d = applyCalls cs2 (applyCalls cs1 d).
Proof. unfold applyCalls. apply foldl_app. Qed.

Lemma applyCalls_cons c cs d :
  applyCalls (c :: cs) d = applyCalls cs (applyCall d c).
Proof. reflexivity. Qed.

Lemma applyCalls_neverWrites k cs : forall d,
  neverWrites k cs = true -> applyCalls cs d !! k = d !! k.
Proof.
  induction cs as [|c cs IH]; intros d H; simpl in *; [reflexivity|].
  apply andb_prop in H as [Hc Hcs]. unfold applyCalls in *. simpl.
  rewrite IH by exact Hcs.
  destruct c as [r p|r p]; simpl; [reflexivity|].
  simpl in Hc. apply lookup_insert_ne. intros E. fold (keyOf p) in Hc.
  rewrite E in Hc. now rewrite String.eqb_refl in Hc.
Qed.

(** ** The listing *)

Lemma contains_refl_prefix (a s sub : string) :
  contains s sub -> contains (a +:+ s) sub.
Proof.
  intros (pre & post & ->). exists (a +:+ pre), post.
  now rewrite append_assoc.
Qed.

Lemma contains_suffix (s b sub : string) :
  contains s sub -> contains (s +:+ b) sub.
Proof.
  intros (pre & post & ->). exists pre, (post +:+ b).
  now rewrite !append_assoc.
Qed.

Lemma contains_self (s : string) : contains s s.
Proof. exists "", "". now rewrite append_empty_r. Qed.

Lemma In_insertKey e e' l : In e (fmt.insertKey e' l) <-> e = e' \/ In e l.
Proof.
  induction l as [|x l IH]; simpl.
  - intuition congruence.
  - destruct (String.leb (fst e') (fst x)); simpl; rewrite ?IH; intuition congruence.
Qed.

Lemma In_sortKeys e l : In e (fmt.sortKeys l) <-> In e l.
Proof.
  induction l as [|x l IH]; simpl; [reflexivity|].
  rewrite In_insertKey, IH. intuition congruence.
Qed.

Lemma contains_joinEntries e l :
  In e l -> contains (fmt.joinEntries l) (fmt.printEntry e).
Proof.
  induction l as [|x l IH]; intros H; [destruct H|].
  destruct H as [->|H].
  - destruct l as [|y l]; [apply contains_self|].
    change (contains (fmt.printEntry e +:+ " " +:+ fmt.joinEntries (y :: l))
                     (fmt.printEntry e)).
    apply contains_suffix, contains_self.
  - destruct l as [|y l]; [destruct H|].
    change (contains (fmt.printEntry x +:+ " " +:+ fmt.joinEntries (y :: l))
                     (fmt.printEntry e)).
    apply contains_refl_prefix, contains_refl_prefix, IH, H.
Qed.

(** Every entry of the map occurs in its listing, as [key:value]. *)
Lemma contains_readList (d : gmap string string) k v :
  d !! k = Some v -> contains (readList d) (k +:+ ":" +:+ v).
Proof.
  intros H. unfold readList, fmt.printMap.
  apply contains_refl_prefix, contains_refl_prefix, contains_suffix.
  apply (contains_joinEntries (k, v)), In_sortKeys.
  apply list_elem_of_In, elem_of_map_to_list, H.
Qed.

Lemma unlocked_init : unlocked s_init.
Proof. reflexivity. Qed.

Lemma showBody_entry expr p d :
  keyOf p <> "" -> showBody expr p d = readEntry expr (keyOf p) (default "" (d !! keyOf p)).
Proof.
  intros H. unfold showBody. now destruct (String.eqb_spec (keyOf p) "").
Qed.

Lemma showBody_list expr p d : keyOf p = "" -> showBody expr p d = readList d.
Proof. intros H. unfold showBody. now rewrite H. Qed.

Section HistoryClaims.
Context (srv : server) (expr : string) (ok : store -> Prop).
Hypothesis B : behaves srv expr ok.
Hypothesis ok_init : ok s_init.

(** A sequence of requests ending in a read is served, and the read
    answers for the map the updates before it have built. *)
Lemma serve_then_show cs r p s :
  ok s ->
  exists ws,
    serve srv (cs ++ [CallShow r p]) s
    = Done (ws, setData s (applyCalls cs (data s)))
    /\ lastBody ws = Some (showBody expr p (applyCalls cs (data s))).
Proof.
  intros H.
  destruct (serve_spec srv expr ok B cs s H) as (ws & Hs & _).
  set (s1 := setData s (applyCalls cs (data s))) in *.
  assert (H1 : ok s1) by (now apply (ok_setData _ _ _ B)).
  exists (ws ++ [http.Write http.newResponse (showBody expr p (data s1))]). split.
  - apply (serve_app srv _ _ _ _ _ _ _ Hs). simpl.
    now rewrite (show_spec _ _ _ B) by exact H1.
  - unfold lastBody. now rewrite last_snoc.
Qed.

Lemma readsBack_nonempty pre mid r p r' p' :
  keyOf p <> "" -> keyOf p' = keyOf p -> neverWrites (keyOf p) mid = true ->
  readsBack srv expr pre mid r p r' p'.
Proof.
  intros Hk Hp Hmid. unfold readsBack.
  destruct (serve_then_show (pre ++ CallUpdate r p :: mid) r' p' s_init ok_init)
    as (ws & Hs & Hl).
  exists ws, (setData s_init (applyCalls (pre ++ CallUpdate r p :: mid) (data s_init))).
  split.
  - rewrite <- Hs. f_equal. now rewrite <- app_assoc.
  - rewrite Hl. f_equal. rewrite showBody_entry by congruence. rewrite Hp.
    f_equal. rewrite applyCalls_app, applyCalls_cons.
    rewrite applyCalls_neverWrites by exact Hmid.
    simpl. now rewrite lookup_insert_eq.
Qed.

Lemma readsAbsent_nonempty cs r p :
  keyOf p <> "" -> neverWrites (keyOf p) cs = true ->
  readsAbsent srv expr cs r p.
Proof.
  intros Hk Hcs. unfold readsAbsent.
  destruct (serve_spec srv expr ok B cs s_init ok_init) as (ws & Hs & _).
  set (s1 := setData s_init (applyCalls cs (data s_init))) in *.
  assert (H1 : ok s1) by (now apply (ok_setData _ _ _ B)).
  assert (Hnone : data s1 !! keyOf p = None).
  { simpl. now rewrite applyCalls_neverWrites by exact Hcs. }
  exists ws, s1. repeat split; try assumption.
  - rewrite (show_spec _ _ _ B) by exact H1.
    rewrite showBody_entry by exact Hk. now rewrite Hnone.
  - rewrite (show_spec _ _ _ B) by (now apply (ok_setData _ _ _ B)).
    rewrite showBody_entry by exact Hk. simpl. now rewrite lookup_insert_eq.
Qed.
End HistoryClaims.

(** ** Goroutines: the locking discipline *)

Lemma total_insert {A : Type} (f : A -> nat) (l : list A) i x y :
  l !! i = Some x -> total f (<[i := y]> l) + f x = total f l + f y.
Proof.
  revert i. induction l as [|z l IH]; intros i H; [discriminate|].
  destruct i as [|i]; simpl in *.
  - inversion H; subst. lia.
  - specialize (IH i H). lia.
Qed.

Lemma total_lookup {A : Type} (f : A -> nat) (l : list A) i x :
  l !! i = Some x -> f x <= total f l.
Proof.
  revert i. induction l as [|z l IH]; intros i H; [discriminate|].
  destruct i as [|i]; simpl in *.
  - inversion H; subst. lia.
  - specialize (IH i H). lia.
Qed.

Lemma total_lookup2 {A : Type} (f : A -> nat) (l : list A) i j x y :
  i <> j -> l !! i = Some x -> l !! j = Some y -> f x + f y <= total f l.
Proof.
  revert i j. induction l as [|z l IH]; intros i j Hij Hi Hj; [discriminate|].
  destruct i as [|i], j as [|j]; simpl in *; try congruence.
  - inversion Hi; subst. pose proof (total_lookup f l j y Hj). lia.
  - inversion Hj; subst. pose proof (total_lookup f l i x Hi). lia.
  - assert (Hne : i <> j) by congruence. specialize (IH i j Hne Hi Hj). lia.
Qed.

Lemma total_zero {A : Type} (f : A -> nat) (l : list A) :
  Forall (fun x => f x = 0) l -> total f l = 0.
Proof. induction 1 as [|x l Hx _ IH]; simpl; [reflexivity | lia]. Qed.

(** The handlers of [rest.go] follow the discipline. *)
Lemma follows_rest_show w r p : follows Free (Rest.show w r p).
Proof.
  unfold Rest.show. destruct (String.eqb _ _); cbn; intros; reflexivity.
Qed.

Lemma follows_rest_update w r p : follows Free (Rest.update w r p).
Proof. unfold Rest.update. cbn. intros; reflexivity. Qed.

Lemma follows_handle_rest c : follows Free (handle restServer c).
Proof.
  destruct c as [r p|r p]; [apply follows_rest_show | apply follows_rest_update].
Qed.

Lemma lockInv_spawn cs s :
  unlocked s -> lockInv (replicate (length cs) Free) (spawn restServer cs s).
Proof.
  intros Hm. unfold lockInv, spawn. simpl. rewrite Hm. simpl.
  repeat split.
  - induction cs as [|c cs IH]; simpl; constructor; [apply follows_handle_rest | exact IH].
  - apply total_zero. induction cs; simpl; constructor; auto.
  - apply total_zero. induction cs; simpl; constructor; auto.
Qed.

Ltac mutex_facts :=
  repeat match goal with
         | H : (_ || _)%bool = false |- _ => apply orb_false_elim in H as [? ?]
         | H : negb _ = false |- _ => apply negb_false_iff in H
         | H : Nat.eqb _ _ = true |- _ => apply Nat.eqb_eq in H
         end.

(** A step of a goroutine that follows the discipline keeps the mutex
    in agreement with what the goroutines hold. *)
Lemma lockInv_step hs i c c' :
  lockInv hs c -> step i c = Done c' -> exists hs', lockInv hs' c'.
Proof.
  intros (HF & Hw & Hr & Hwr) Hstep. unfold step in Hstep.
  destruct (goroutines c !! i) as [t|] eqn:Ht; [|discriminate].
  destruct t as [w|X a k]; [discriminate|].
  destruct (Forall2_lookup_r _ _ _ _ _ HF Ht) as (h & Hh & Hfol).
  simpl in Hfol. destruct (after h a) as [h'|] eqn:Ha; [|contradiction].
  destruct (perform a (shared c)) as [[x s']| |] eqn:Hp; try discriminate.
  inversion Hstep; subst c'; clear Hstep.
  exists (<[i := h']> hs). unfold lockInv. simpl.
  pose proof (total_insert holdsWrite hs i h h' Hh) as Tw.
  pose proof (total_insert holdsRead hs i h h' Hh) as Tr.
  split; [apply Forall2_insert; [exact HF | apply Hfol]|].
  destruct c as [[d [wr rd]] ts]. simpl in *.
  destruct a; destruct h; simpl in Ha; try discriminate;
    inversion Ha; subst h'; simpl in Hp, Tw, Tr;
    repeat match type of Hp with
           | context [if ?b then _ else _] => destruct b eqn:?
           | context [match ?n with O => _ | S _ => _ end] => destruct n eqn:?
           end;
    try discriminate; inversion Hp; mutex_facts; subst; simpl in *;
    repeat split; auto; try lia; try congruence;
    try (intros E; specialize (Hwr E); lia).
Qed.

(** With the discipline followed, no unlock is ever fatal. *)
Lemma lockInv_no_fatal hs i c msg :
  lockInv hs c -> step i c <> Fatal msg.
Proof.
  intros (HF & Hw & Hr & Hwr) Hstep. unfold step in Hstep.
  destruct (goroutines c !! i) as [t|] eqn:Ht; [|discriminate].
  destruct t as [w|X a k]; [discriminate|].
  destruct (Forall2_lookup_r _ _ _ _ _ HF Ht) as (h & Hh & Hfol).
  simpl in Hfol. destruct (after h a) as [h'|] eqn:Ha; [|contradiction].
  pose proof (total_lookup holdsWrite hs i h Hh) as Tw.
  pose proof (total_lookup holdsRead hs i h Hh) as Tr.
  destruct c as [[d [wr rd]] ts]. simpl in *.
  destruct a; destruct h; simpl in Ha; try discriminate;
    simpl in Hstep, Tw, Tr; destruct wr; destruct rd; simpl in *;
    try discriminate; lia.
Qed.

(** With the discipline followed, a goroutine at an assignment is alone
    at the map. *)
Lemma lockInv_exclusive hs c : lockInv hs c -> exclusive c.
Proof.
  intros (HF & Hw & Hr & Hwr) i j ti tj Hij Hi Hj Hacc.
  destruct (Forall2_lookup_r _ _ _ _ _ HF Hi) as (hi & Hhi & Hfi).
  destruct (Forall2_lookup_r _ _ _ _ _ HF Hj) as (hj & Hhj & Hfj).
  destruct ti as [w|X a k]; [discriminate|]. simpl in Hacc, Hfi.
  assert (hi = Writing) as ->.
  { destruct a; destruct hi; simpl in *; try discriminate; try contradiction; reflexivity. }
  pose proof (total_lookup2 holdsWrite hs i j _ _ Hij Hhi Hhj) as Tw.
  pose proof (total_lookup holdsRead hs j hj Hhj) as Tr.
  destruct tj as [w|Y b k']; [reflexivity|]. simpl in Hfj |- *.
  destruct (sync.writer (m (shared c))) eqn:Ew; simpl in Tw; [|lia].
  rewrite (Hwr eq_refl) in Hr.
  destruct b; destruct hj; simpl in *; try reflexivity; try contradiction; lia.
Qed.

Lemma forallb_false_lookup {A : Type} (f : A -> bool) (l : list A) :
  forallb f l = false -> exists i x, l !! i = Some x /\ f x = false.
Proof.
  induction l as [|y l IH]; simpl; [discriminate|].
  destruct (f y) eqn:E; simpl; intros H.
  - destruct (IH H) as (i & x & Hi & Hx). now exists (S i), x.
  - now exists 0, y.
Qed.

(** With the discipline followed, the goroutines never all wait: one of
    them can move as long as one of them has not returned. *)
Lemma lockInv_progress hs c :
  lockInv hs c -> finished c = false -> exists i c', step i c = Done c'.
Proof.
  intros (HF & Hw & Hr & Hwr) Hfin.
  destruct (decide (Forall (fun h => h = Free) hs)) as [Hall|Hsome].
  - (* nobody holds the mutex: whoever has not returned can lock *)
    assert (Zw : total holdsWrite hs = 0).
    { apply total_zero. eapply Forall_impl; [exact Hall|]. now intros h ->. }
    assert (Zr : total holdsRead hs = 0).
    { apply total_zero. eapply Forall_impl; [exact Hall|]. now intros h ->. }
    destruct (forallb_false_lookup _ _ Hfin) as (i & t & Ht & Hret).
    destruct (Forall2_lookup_r _ _ _ _ _ HF Ht) as (h & Hh & Hfol).
    assert (h = Free) as ->.
    { rewrite Forall_forall in Hall. apply Hall.
      eapply list_elem_of_lookup_2, Hh. }
    destruct t as [w|X a k]; [discriminate|].
    exists i. unfold step. rewrite Ht.
    destruct c as [[d [wr rd]] ts]. simpl in *.
    destruct wr; [lia|]. subst rd. rewrite Zr.
    destruct a; simpl in Hfol; try contradiction; simpl; eauto.
  - (* somebody holds the mutex and can go on *)
    apply not_Forall_Exists in Hsome; [|intros h; apply _].
    apply Exists_exists in Hsome as (h & Hin & Hne).
    apply list_elem_of_lookup_1 in Hin as (i & Hh).
    destruct (Forall2_lookup_l _ _ _ _ _ HF Hh) as (t & Ht & Hfol).
    pose proof (total_lookup holdsWrite hs i h Hh) as Tw.
    pose proof (total_lookup holdsRead hs i h Hh) as Tr.
    destruct t as [w|X a k]; [simpl in Hfol; contradiction|].
    exists i. unfold step. rewrite Ht.
    destruct c as [[d [wr rd]] ts]. simpl in *.
    destruct a; destruct h; simpl in Hfol; try contradiction; try congruence;
      simpl in Tw, Tr |- *; destruct wr; destruct rd; simpl; eauto; lia.
Qed.

(** ** Goroutines: every handler returns *)

Lemma bounded_handle_rest c : bounded 3 (handle restServer c).
Proof.
  destruct c as [r p|r p]; simpl.
  - unfold Rest.show. destruct (String.eqb _ _); cbn; intros; exact I.
  - unfold Rest.update. cbn. intros; exact I.
Qed.

Lemma bounded_spawn cs s :
  Forall2 bounded (replicate (length cs) 3) (goroutines (spawn restServer cs s))
  /\ total id (replicate (length cs) 3) = 3 * length cs.
Proof.
  unfold spawn. simpl. induction cs as [|c cs [IH1 IH2]]; simpl.
  - split; [constructor | reflexivity].
  - split; [constructor; [apply bounded_handle_rest | exact IH1]|].
    change (3 + total id (replicate (length cs) 3) = 3 * S (length cs)). lia.
Qed.

(** Each step uses up one of the actions the goroutines have left. *)
Lemma bounded_step ns i c c' :
  Forall2 bounded ns (goroutines c) -> step i c = Done c' ->
  exists ns', Forall2 bounded ns' (goroutines c') /\ S (total id ns') <= total id ns.
Proof.
  intros HF Hstep. unfold step in Hstep.
  destruct (goroutines c !! i) as [t|] eqn:Ht; [|discriminate].
  destruct t as [w|X a k]; [discriminate|].
  destruct (Forall2_lookup_r _ _ _ _ _ HF Ht) as (n & Hn & Hb).
  destruct (perform a (shared c)) as [[x s']| |]; try discriminate.
  inversion Hstep; subst c'; clear Hstep. simpl.
  destruct n as [|n']; [contradiction|]. simpl in Hb.
  exists (<[i := n']> ns). split.
  - apply Forall2_insert; [exact HF | apply Hb].
  - pose proof (total_insert id ns i (S n') n' Hn) as T.
    change (id (S n')) with (S n') in T. change (id n') with n' in T. lia.
Qed.

(** ** Goroutines: no write is lost *)

Lemma perform_data {X : Type} (a : action X) s x s' :
  perform a s = Done (x, s') ->
  data s' = match assignment a with
            | Some (key, v) => <[key := v]> (data s)
            | None => data s
            end.
Proof.
  destruct s as [d [wr rd]].
  destruct a; simpl; intros H;
    repeat match type of H with
           | context [if ?b then _ else _] => destruct b
           | context [match ?n with O => _ | S _ => _ end] => destruct n
           end; try discriminate; now inversion H.
Qed.

Lemma writesInv_spawn srv cs s :
  srv = restServer \/ srv = noLockServer ->
  writesInv cs (spawn srv cs s).
Proof.
  intros Hsrv. unfold writesInv, spawn. simpl.
  induction cs as [|c cs IH]; simpl; constructor; [|exact IH].
  destruct Hsrv as [-> | ->]; destruct c as [r p|r p]; simpl.
  - split; [|discriminate].
    unfold Rest.show. destruct (String.eqb _ _); cbn; intuition.
  - split.
    + unfold Rest.update. cbn. intuition.
    + intros r' p' E. inversion E; subst. left.
      unfold Rest.update. cbn. right. intros _. now left.
  - split; [|discriminate].
    unfold NoLock.show. destruct (String.eqb _ _); cbn; intuition.
  - split.
    + unfold NoLock.update. cbn. intuition.
    + intros r' p' E. inversion E; subst. left.
      unfold NoLock.update. cbn. now left.
Qed.

Lemma elem_of_updateKeys cs j r p :
  cs !! j = Some (CallUpdate r p) -> keyOf p ∈ updateKeys cs.
Proof.
  intros H. unfold updateKeys. apply list_elem_of_omap.
  exists (CallUpdate r p). split; [|reflexivity].
  eapply list_elem_of_lookup_2, H.
Qed.

(** Updates of distinct keys: two of them never write the same key. *)
Lemma updateKeys_distinct cs : forall i j ri pi rj pj,
  NoDup (updateKeys cs) -> i <> j ->
  cs !! i = Some (CallUpdate ri pi) -> cs !! j = Some (CallUpdate rj pj) ->
  keyOf pi <> keyOf pj.
Proof.
  induction cs as [|c cs IH]; intros i j ri pi rj pj Hnd Hij Hi Hj; [discriminate|].
  assert (Htl : NoDup (updateKeys cs)).
  { destruct c; simpl in Hnd; [exact Hnd | now apply NoDup_cons in Hnd]. }
  destruct i as [|i], j as [|j]; simpl in *; try congruence.
  - inversion Hi; subst c. simpl in Hnd. apply NoDup_cons in Hnd as [Hnin _].
    intros E. apply Hnin. rewrite E. eapply elem_of_updateKeys, Hj.
  - inversion Hj; subst c. simpl in Hnd. apply NoDup_cons in Hnd as [Hnin _].
    intros E. apply Hnin. rewrite <- E. eapply elem_of_updateKeys, Hi.
  - eapply (IH i j); eauto.
Qed.

(** A step loses no write: the goroutine that moves assigns only its own
    entry, and the updates have keys of their own. *)
Lemma writesInv_step cs i c c' :
  NoDup (updateKeys cs) ->
  writesInv cs c -> step i c = Done c' -> writesInv cs c'.
Proof.
  intros Hnd HI Hstep. unfold step in Hstep.
  destruct (goroutines c !! i) as [t|] eqn:Ht; [|discriminate].
  destruct t as [w|X a k]; [discriminate|].
  destruct (perform a (shared c)) as [[x s']| |] eqn:Hp; try discriminate.
  inversion Hstep; subst c'; clear Hstep.
  apply perform_data in Hp.
  unfold writesInv in *. simpl.
  apply Forall2_same_length_lookup in HI as [Hlen HI].
  apply Forall2_same_length_lookup. split; [now rewrite length_insert|].
  destruct (lookup_lt_is_Some_2 cs i) as [ci Hci].
  { rewrite Hlen. eapply lookup_lt_Some, Ht. }
  destruct (HI i ci _ Hci Ht) as [Hai Hwi]. simpl in Hai. destruct Hai as [Hai Haik].
  intros j cj tj Hcj Htj.
  destruct (decide (i = j)) as [<-|Hij].
  - (* the goroutine that moved *)
    rewrite list_lookup_insert_eq in Htj by (eapply lookup_lt_Some, Ht).
    inversion Htj; subst tj. rewrite Hci in Hcj. inversion Hcj; subst cj.
    split; [apply Haik|].
    intros r p E. subst ci. simpl in Hai.
    destruct (Hwi r p eq_refl) as [Hwill|Hin].
    + simpl in Hwill. destruct Hwill as [Ea|Hk]; [|left; apply Hk].
      right. rewrite Hp, Ea. apply lookup_insert_eq.
    + right. rewrite Hp. destruct (assignment a) as [[key v]|]; [|exact Hin].
      destruct Hai as [-> ->]. apply lookup_insert_eq.
  - (* another goroutine *)
    rewrite list_lookup_insert_ne in Htj by exact Hij.
    destruct (HI j cj tj Hcj Htj) as [Haj Hwj].
    split; [exact Haj|].
    intros r p E. subst cj.
    destruct (Hwj r p eq_refl) as [Hwill|Hin]; [now left|].
    right. rewrite Hp. destruct (assignment a) as [[key v]|]; [|exact Hin].
    destruct ci as [ri pi|ri pi]; simpl in Hai; [contradiction|].
    destruct Hai as [-> ->].
    rewrite lookup_insert_ne; [exact Hin|].
    eapply (updateKeys_distinct cs i j); eauto.
Qed.

(** Once every handler has returned, the entry of every update is in the
    map. *)
Lemma writesInv_finished cs c r p :
  writesInv cs c -> finished c = true -> In (CallUpdate r p) cs ->
  data (shared c) !! keyOf p = Some (valueOf p).
Proof.
  intros HI Hfin Hin. unfold writesInv in HI.
  apply list_elem_of_In, list_elem_of_lookup_1 in Hin as (i & Hi).
  destruct (Forall2_lookup_l _ _ _ _ _ HI Hi) as (t & Ht & _ & Hw).
  destruct (Hw r p eq_refl) as [Hwill|Hdone]; [|exact Hdone].
  unfold finished in Hfin. rewrite forallb_forall in Hfin.
  assert (Hret : returned t = true).
  { apply Hfin, list_elem_of_In. eapply list_elem_of_lookup_2, Ht. }
  destruct t; [contradiction | discriminate].
Qed.

Lemma runInv_step cs budget i c c' :
  NoDup (updateKeys cs) ->
  runInv cs (S budget) c -> step i c = Done c' -> runInv cs budget c'.
Proof.
  intros Hnd ([hs HL] & HW & (ns & HB & Hle)) Hstep. repeat split.
  - eapply lockInv_step; eauto.
  - eapply writesInv_step; eauto.
  - destruct (bounded_step ns i c c' HB Hstep) as (ns' & HB' & Hlt).
    exists ns'. split; [exact HB' | lia].
Qed.

Lemma runInv_budget cs i c c' :
  runInv cs 0 c -> step i c <> Done c'.
Proof.
  intros (_ & _ & (ns & HB & Hle)) Hstep.
  destruct (bounded_step ns i c c' HB Hstep) as (ns' & _ & Hlt). lia.
Qed.

(** A run is never fatal, keeps the invariants and is no longer than the
    actions the goroutines have left. *)
Lemma run_runInv cs sched : forall budget c,
  NoDup (updateKeys cs) -> runInv cs budget c ->
  (forall msg, run sched c <> Fatal msg)
  /\ forall c', run sched c = Done c' ->
       length sched <= budget /\ runInv cs (budget - length sched) c'.
Proof.
  induction sched as [|i sched IH]; intros budget c Hnd HI; simpl.
  - split; [discriminate|]. intros c' E. inversion E; subst.
    split; [lia|]. now rewrite Nat.sub_0_r.
  - destruct (step i c) as [c1| |msg] eqn:Hstep.
    + destruct budget as [|budget]; [exfalso; eapply runInv_budget; eauto|].
      destruct (IH budget c1 Hnd (runInv_step _ _ _ _ _ Hnd HI Hstep)) as [Hf Hd].
      split; [exact Hf|]. intros c' E. destruct (Hd c' E) as [Hl HI'].
      split; [lia | exact HI'].
    + split; discriminate.
    + exfalso. destruct HI as ([hs HL] & _). eapply lockInv_no_fatal; eauto.
Qed.

Lemma runInv_spawn cs s :
  unlocked s -> runInv cs (3 * length cs) (spawn restServer cs s).
Proof.
  intros Hm. repeat split.
  - eexists. now apply lockInv_spawn.
  - apply writesInv_spawn. now left.
  - destruct (bounded_spawn cs s) as [HB Ht].
    eexists. split; [exact HB | lia].
Qed.

(** From wherever a run has got, the goroutines can be scheduled until
    every handler has returned. *)
Lemma run_completes cs : forall budget c,
  NoDup (updateKeys cs) -> runInv cs budget c ->
  exists sched c', run sched c = Done c' /\ finished c' = true.
Proof.
  induction budget as [|budget IH]; intros c Hnd HI.
  - destruct (finished c) eqn:Hfin; [exists [], c; now split|].
    destruct HI as ([hs HL] & HW & HB).
    destruct (lockInv_progress hs c HL Hfin) as (i & c1 & Hstep).
    exfalso. eapply (runInv_budget cs i c c1); [|exact Hstep].
    repeat split; eauto.
  - destruct (finished c) eqn:Hfin; [exists [], c; now split|].
    pose proof HI as ([hs HL] & _).
    destruct (lockInv_progress hs c HL Hfin) as (i & c1 & Hstep).
    destruct (IH c1 Hnd (runInv_step _ _ _ _ _ Hnd HI Hstep)) as (sched & c' & Hr & Hf).
    exists (i :: sched), c'. simpl. rewrite Hstep. now split.
Qed.

(* ================================================================= *)
(** * The specification, claim by claim *)

(** C1, as amended.  Last write wins on read-back, for a key that is not
    empty: whatever requests came before, once [update] has written
    [k -> v] and no later request has updated [k], [show] of [k] answers
    with the entry [k], [v].  (For the empty key [show] lists the store
    instead.) *)
Theorem show_after_update_reads_last_write
  (pre mid : list call) (r : http.Request) (p : httprouter.Params)
  (r' : http.Request) (p' : httprouter.Params) :
  keyOf p <> "" ->
  keyOf p' = keyOf p ->
  neverWrites (keyOf p) mid = true ->
  readsBack restServer "s.data" pre mid r p r' p'.
Proof.
  intros Hk Hp Hmid.
  exact (readsBack_nonempty restServer "s.data" unlocked rest_behaves unlocked_init
           pre mid r p r' p' Hk Hp Hmid).
Qed.

Lemma show_after_update_reads_last_write_witness :
  readsBack restServer "s.data"
    [putEntry (curl "PUT" "/entry/second/hi") "second" "hi"]
    [putEntry (curl "PUT" "/entry/second/ho") "second" "ho"; getList (curl "GET" "/list")]
    (curl "PUT" "/entry/first/hello")
    [httprouter.mkParam "key" "first"; httprouter.mkParam "value" "hello"]
    (curl "GET" "/entry/first") [httprouter.mkParam "key" "first"].
Proof.
  apply show_after_update_reads_last_write.
  - vm_compute. discriminate.
  - reflexivity.
  - reflexivity.
Defined.

(** C1, as stated, fails for the empty key: after [update] of the empty
    key, [show] of the empty key is the list route and answers with the
    listing of the whole store, not with the entry. *)
Lemma show_after_update_empty_key_lists_store :
  let p := [httprouter.mkParam "key" ""; httprouter.mkParam "value" "x"] in
  let p' := [] in
  let cs := [putEntry (curl "PUT" "/entry/a/y") "a" "y";
             CallUpdate (curl "PUT" "/entry//x") p;
             CallShow (curl "GET" "/list") p'] in
  keyOf p' = keyOf p
  /\ neverWrites (keyOf p) [] = true
  /\ (exists ws s, serve restServer cs s_init = Done (ws, s)
                   /\ lastBody ws = Some "Read list: map[:x a:y]")
  /\ ~ readsBack restServer "s.data"
         [putEntry (curl "PUT" "/entry/a/y") "a" "y"] []
         (curl "PUT" "/entry//x") p (curl "GET" "/list") p'.
Proof.
  repeat split.
  - eexists _, _. split; vm_compute; reflexivity.
  - intros (ws & s & Hs & Hl).
    vm_compute in Hs. inversion Hs; subst; clear Hs.
    vm_compute in Hl. discriminate.
Qed.

(** C2, as amended.  For a key that is not empty and is in the store
    with value [v], [show] writes exactly the entry and leaves the store
    alone; [rest.go] prints the entry as [s.data[k] = v], the version
    without the lock as [data[k] = v].  In particular, right after an
    [update] of the key, [show] writes the entry with the value of the
    update. *)
Theorem show_entry_body
  (w : http.ResponseWriter) (r : http.Request) (p : httprouter.Params)
  (s : store) (v : string) (r0 : http.Request) (p0 : httprouter.Params) :
  unlocked s ->
  keyOf p <> "" ->
  (data s !! keyOf p = Some v ->
   exec (Rest.show w r p) s
   = Done (http.Write w ("Read entry: s.data[" +:+ keyOf p +:+ "] = " +:+ v), s)
   /\ exec (NoLock.show w r p) s
      = Done (http.Write w ("Read entry: data[" +:+ keyOf p +:+ "] = " +:+ v), s))
  /\ (keyOf p0 = keyOf p ->
      (exists ws s1,
          serve restServer [CallUpdate r0 p0; CallShow r p] s = Done (ws, s1)
          /\ lastBody ws
             = Some ("Read entry: s.data[" +:+ keyOf p +:+ "] = " +:+ valueOf p0))
      /\ (exists ws s1,
          serve noLockServer [CallUpdate r0 p0; CallShow r p] s = Done (ws, s1)
          /\ lastBody ws
             = Some ("Read entry: data[" +:+ keyOf p +:+ "] = " +:+ valueOf p0))).
Proof.
  intros Hm Hk. split.
  - intros Hv. split.
    + rewrite exec_rest_show_entry by assumption. now rewrite Hv.
    + rewrite exec_nolock_show_entry by assumption. now rewrite Hv.
  - intros Hp0. split.
    + destruct (serve_then_show restServer "s.data" unlocked rest_behaves
                  [CallUpdate r0 p0] r p s Hm) as (ws & Hs & Hl).
      eexists ws, _. split; [exact Hs|]. rewrite Hl, showBody_entry by exact Hk.
      rewrite applyCalls_cons. simpl. rewrite Hp0, lookup_insert_eq. reflexivity.
    + destruct (serve_then_show noLockServer "data" (fun _ => True) nolock_behaves
                  [CallUpdate r0 p0] r p s I) as (ws & Hs & Hl).
      eexists ws, _. split; [exact Hs|]. rewrite Hl, showBody_entry by exact Hk.
      rewrite applyCalls_cons. simpl. rewrite Hp0, lookup_insert_eq. reflexivity.
Qed.

Lemma show_entry_body_witness :
  let s := setData s_init {["first" := "hello"]} in
  let p := [httprouter.mkParam "key" "first"] in
  let r := curl "GET" "/entry/first" in
  let r0 := curl "PUT" "/entry/first/hello" in
  let p0 := [httprouter.mkParam "key" "first"; httprouter.mkParam "value" "hello"] in
  (exec (Rest.show http.newResponse r p) s
   = Done ({| http.status := 200; http.body := "Read entry: s.data[first] = hello" |}, s)
   /\ exec (NoLock.show http.newResponse r p) s
      = Done ({| http.status := 200; http.body := "Read entry: data[first] = hello" |}, s))
  /\ (exists ws s1,
         serve restServer [CallUpdate r0 p0; CallShow r p] s_init = Done (ws, s1)
         /\ lastBody ws = Some "Read entry: s.data[first] = hello").
Proof.
  intros s p r r0 p0.
  assert (Hk : keyOf p <> "") by (vm_compute; discriminate).
  split.
  - destruct (show_entry_body http.newResponse r p s "hello" r0 p0 eq_refl Hk)
      as [H _].
    exact (H eq_refl).
  - destruct (show_entry_body http.newResponse r p s_init "hello" r0 p0 eq_refl Hk)
      as [_ H].
    exact (proj1 (H eq_refl)).
Defined.

(** C2, as stated, fails on [rest.go]: after [update] of [first] to
    [hello], [show] of [first] answers
    [Read entry: s.data[first] = hello], which is not
    [Read entry: data[first] = hello]. *)
Lemma show_first_prints_s_data :
  let cs := [putEntry (curl "PUT" "/entry/first/hello") "first" "hello";
             getEntry (curl "GET" "/entry/first") "first"] in
  exists ws s,
    serve restServer cs s_init = Done (ws, s)
    /\ data s !! "first" = Some "hello"
    /\ lastBody ws = Some "Read entry: s.data[first] = hello"
    /\ lastBody ws <> Some "Read entry: data[first] = hello".
Proof.
  eexists _, _. split; [vm_compute; reflexivity|].
  split; [reflexivity|]. split; [reflexivity|]. discriminate.
Qed.

(** C3, as amended.  For a key that is not empty and that no request has
    written, [show] answers, without any error, with the entry of an
    empty value, exactly as it does when the key is stored with the
    empty value. *)
Theorem show_unwritten_key_reads_empty
  (cs : list call) (r : http.Request) (p : httprouter.Params) :
  keyOf p <> "" ->
  neverWrites (keyOf p) cs = true ->
  readsAbsent restServer "s.data" cs r p
  /\ readsAbsent noLockServer "data" cs r p.
Proof.
  intros Hk Hcs. split.
  - exact (readsAbsent_nonempty restServer "s.data" unlocked rest_behaves
             unlocked_init cs r p Hk Hcs).
  - exact (readsAbsent_nonempty noLockServer "data" (fun _ => True) nolock_behaves
             I cs r p Hk Hcs).
Qed.

Lemma show_unwritten_key_reads_empty_witness :
  let cs := [putEntry (curl "PUT" "/entry/first/hello") "first" "hello"] in
  let r := curl "GET" "/entry/third" in
  let p := [httprouter.mkParam "key" "third"] in
  readsAbsent restServer "s.data" cs r p /\ readsAbsent noLockServer "data" cs r p.
Proof.
  intros cs r p. apply show_unwritten_key_reads_empty.
  - vm_compute. discriminate.
  - reflexivity.
Defined.

(** C3, as stated, fails for the empty key: nothing was ever written
    under it, yet [show] of the empty key answers with the listing of
    the store, not with an entry of an empty value. *)
Lemma show_unwritten_empty_key_lists_store :
  let r := curl "GET" "/list" in
  neverWrites "" [] = true
  /\ exec (Rest.show http.newResponse r []) s_init
     = Done ({| http.status := 200; http.body := "Read list: map[]" |}, s_init)
  /\ ~ readsAbsent restServer "s.data" [] r []
  /\ ~ readsAbsent noLockServer "data" [] r [].
Proof.
  split; [reflexivity|]. split; [vm_compute; reflexivity|].
  split; intros (ws & s & Hs & _ & He & _);
    simpl in Hs; inversion Hs; subst; clear Hs;
    vm_compute in He; discriminate.
Qed.

(** C4, as amended.  For all keys and values, empty or not, [update]
    succeeds without any validation, assigns [k -> v] in the store
    (creating or overwriting the entry), releases the mutex, and answers
    [Updated: s.data[k] = v]. *)
Theorem update_assigns_and_answers
  (w : http.ResponseWriter) (r : http.Request) (p : httprouter.Params) (s : store) :
  unlocked s ->
  exists s',
    exec (Rest.update w r p) s
    = Done (http.Write w ("Updated: s.data[" +:+ keyOf p +:+ "] = " +:+ valueOf p), s')
    /\ data s' = <[keyOf p := valueOf p]> (data s)
    /\ data s' !! keyOf p = Some (valueOf p)
    /\ unlocked s'.
Proof.
  intros Hm. exists (setData s (<[keyOf p := valueOf p]> (data s))).
  split; [now rewrite exec_rest_update|].
  split; [reflexivity|]. split; [apply lookup_insert_eq | exact Hm].
Qed.

Lemma update_assigns_and_answers_witness :
  let r := curl "PUT" "/entry//" in
  let p := [httprouter.mkParam "key" ""; httprouter.mkParam "value" ""] in
  exists s',
    exec (Rest.update http.newResponse r p) s_init
    = Done (http.Write http.newResponse "Updated: s.data[] = ", s')
    /\ data s' = <["" := ""]> (data s_init)
    /\ data s' !! "" = Some ""
    /\ unlocked s'.
Proof.
  intros r p.
  apply (update_assigns_and_answers http.newResponse r p s_init).
  reflexivity.
Defined.

(** C4, as stated, fails on the answer: [update] of [first] to [hello]
    answers [Updated: s.data[first] = hello], which is not
    [Updated: data[first] = hello]. *)
Lemma update_first_prints_s_data :
  let r := curl "PUT" "/entry/first/hello" in
  let p := [httprouter.mkParam "key" "first"; httprouter.mkParam "value" "hello"] in
  exists w s,
    exec (Rest.update http.newResponse r p) s_init = Done (w, s)
    /\ http.body w = "Updated: s.data[first] = hello"
    /\ http.body w <> "Updated: data[first] = hello".
Proof.
  eexists _, _. split; [vm_compute; reflexivity|].
  split; [reflexivity | discriminate].
Qed.

(** C5.  On every store, [show] with an empty key writes the listing of
    the whole map and every entry of the store occurs in it; so, from
    any store, after the writes of [a:1] and [b:2] and any requests that
    overwrite neither, the listing contains both entries. *)
Theorem show_list_renders_store
  (w : http.ResponseWriter) (r : http.Request) (p : httprouter.Params) (s : store)
  (r1 r2 : http.Request) (mid : list call) :
  unlocked s ->
  keyOf p = "" ->
  neverWrites "a" mid = true ->
  neverWrites "b" mid = true ->
  (exec (Rest.show w r p) s = Done (http.Write w (readList (data s)), s)
   /\ exec (NoLock.show w r p) s = Done (http.Write w (readList (data s)), s))
  /\ (forall k v, data s !! k = Some v -> contains (readList (data s)) (k +:+ ":" +:+ v))
  /\ (forall srv, srv = restServer \/ srv = noLockServer ->
      exists ws s' out,
        serve srv (putEntry r1 "a" "1" :: putEntry r2 "b" "2" :: mid ++ [CallShow r p]) s
        = Done (ws, s')
        /\ lastBody ws = Some out
        /\ contains out "a:1" /\ contains out "b:2").
Proof.
  intros Hm Hk Ha Hb. split; [split|split].
  - now apply exec_rest_show_list.
  - now apply exec_nolock_show_list.
  - intros k v. apply contains_readList.
  - intros srv Hsrv.
    assert (HB : exists expr ok, behaves srv expr ok /\ ok s).
    { destruct Hsrv as [-> | ->].
      - exists "s.data", unlocked. split; [apply rest_behaves | exact Hm].
      - exists "data", (fun _ => True). split; [apply nolock_behaves | exact I]. }
    destruct HB as (expr & ok & B & Hok).
    set (cs := putEntry r1 "a" "1" :: putEntry r2 "b" "2" :: mid).
    destruct (serve_then_show srv expr ok B cs r p s Hok) as (ws & Hs & Hl).
    exists ws, (setData s (applyCalls cs (data s))), (readList (applyCalls cs (data s))).
    split; [exact Hs|]. split; [now rewrite Hl, showBody_list|].
    split.
    + apply (contains_readList _ "a" "1"). unfold cs. rewrite !applyCalls_cons.
      rewrite applyCalls_neverWrites by assumption. simpl.
      rewrite lookup_insert_ne by discriminate. apply lookup_insert_eq.
    + apply (contains_readList _ "b" "2"). unfold cs. rewrite !applyCalls_cons.
      rewrite applyCalls_neverWrites by assumption. simpl.
      apply lookup_insert_eq.
Qed.

Lemma show_list_renders_store_witness :
  let r := curl "GET" "/list" in
  let r1 := curl "PUT" "/entry/a/1" in
  let r2 := curl "PUT" "/entry/b/2" in
  exists ws s',
    serve restServer [putEntry r1 "a" "1"; putEntry r2 "b" "2"; getList r] s_init
    = Done (ws, s')
    /\ lastBody ws = Some "Read list: map[a:1 b:2]"
    /\ contains "Read list: map[a:1 b:2]" "a:1"
    /\ contains "Read list: map[a:1 b:2]" "b:2".
Proof.
  intros r r1 r2.
  destruct (show_list_renders_store http.newResponse r [] s_init r1 r2 []
              eq_refl eq_refl eq_refl eq_refl) as (_ & _ & H).
  destruct (H restServer (or_introl eq_refl)) as (ws & s' & out & Hs & Hl & Ha & Hb).
  exists ws, s'. split; [exact Hs|].
  assert (E : lastBody ws = Some "Read list: map[a:1 b:2]").
  { vm_compute in Hs. inversion Hs; subst. reflexivity. }
  rewrite E in Hl. inversion Hl; subst out.
  split; [exact E|]. split; [exact Ha | exact Hb].
Defined.

(** C6.  [update] is idempotent: a second [update] with the same key and
    value leaves the store, map and mutex, exactly as the first one left
    it. *)
Theorem update_twice_same_store
  (w w' : http.ResponseWriter) (r r' : http.Request) (p : httprouter.Params)
  (s : store) :
  unlocked s ->
  exists w1 w2 s1,
    exec (Rest.update w r p) s = Done (w1, s1)
    /\ exec (Rest.update w' r' p) s1 = Done (w2, s1).
Proof.
  intros Hm.
  exists (http.Write w (updated "s.data" (keyOf p) (valueOf p))),
         (http.Write w' (updated "s.data" (keyOf p) (valueOf p))),
         (setData s (<[keyOf p := valueOf p]> (data s))).
  split; [now apply exec_rest_update|].
  rewrite exec_rest_update by exact Hm.
  rewrite setData_setData. simpl. now rewrite insert_insert_eq.
Qed.

Lemma update_twice_same_store_witness :
  let r := curl "PUT" "/entry/first/hello" in
  let p := [httprouter.mkParam "key" "first"; httprouter.mkParam "value" "hello"] in
  let s := setData s_init {["first" := "hi"; "second" := "hi"]} in
  exists w1 w2 s1,
    exec (Rest.update http.newResponse r p) s = Done (w1, s1)
    /\ exec (Rest.update http.newResponse r p) s1 = Done (w2, s1).
Proof.
  intros r p s.
  apply (update_twice_same_store http.newResponse http.newResponse r r p s).
  reflexivity.
Defined.

(** C7.  The handlers keep no state of their own: what a handler writes
    and the store it leaves depend on the path parameters and the store
    only, not on what the response writer already holds; and [show], for
    every key, the empty one included, leaves the store, map and mutex,
    exactly as it found it. *)
Theorem show_leaves_store
  (r : http.Request) (p : httprouter.Params) (s : store) :
  unlocked s ->
  (exists out, forall w, exec (Rest.show w r p) s = Done (http.Write w out, s))
  /\ (exists out s', forall w, exec (Rest.update w r p) s = Done (http.Write w out, s'))
  /\ (exists out, forall w, exec (NoLock.show w r p) s = Done (http.Write w out, s))
  /\ (exists out s', forall w, exec (NoLock.update w r p) s = Done (http.Write w out, s')).
Proof.
  intros Hm. repeat split.
  - exists (showBody "s.data" p (data s)). intros w.
    exact (show_spec _ _ _ rest_behaves w r p s Hm).
  - eexists _, _. intros w. exact (update_spec _ _ _ rest_behaves w r p s Hm).
  - exists (showBody "data" p (data s)). intros w.
    exact (show_spec _ _ _ nolock_behaves w r p s I).
  - eexists _, _. intros w. exact (update_spec _ _ _ nolock_behaves w r p s I).
Qed.

Lemma show_leaves_store_witness :
  let s := setData s_init {["first" := "hello"]} in
  (exists out, forall w,
      exec (Rest.show w (curl "GET" "/list") []) s = Done (http.Write w out, s))
  /\ (exists out, forall w,
      exec (NoLock.show w (curl "GET" "/list") []) s = Done (http.Write w out, s)).
Proof.
  intros s.
  destruct (show_leaves_store (curl "GET" "/list") [] s eq_refl) as (H1 & _ & H3 & _).
  split; [exact H1 | exact H3].
Defined.

(** C9.  [update] changes at most the entry of its key: every other key
    maps to the same value, or stays absent, after the call as before. *)
Theorem update_leaves_other_keys
  (w : http.ResponseWriter) (r : http.Request) (p : httprouter.Params)
  (s : store) (k' : string) :
  unlocked s ->
  k' <> keyOf p ->
  (exists w' s', exec (Rest.update w r p) s = Done (w', s')
                 /\ data s' !! k' = data s !! k')
  /\ (exists w' s', exec (NoLock.update w r p) s = Done (w', s')
                    /\ data s' !! k' = data s !! k').
Proof.
  intros Hm Hk. split.
  - eexists _, _. split; [now apply exec_rest_update|].
    simpl. apply lookup_insert_ne. congruence.
  - eexists _, _. split; [apply exec_nolock_update|].
    simpl. apply lookup_insert_ne. congruence.
Qed.

Lemma update_leaves_other_keys_witness :
  let r := curl "PUT" "/entry/first/hello" in
  let p := [httprouter.mkParam "key" "first"; httprouter.mkParam "value" "hello"] in
  let s := setData s_init {["second" := "hi"]} in
  (exists w' s', exec (Rest.update http.newResponse r p) s = Done (w', s')
                 /\ data s' !! "second" = data s !! "second")
  /\ (exists w' s', exec (NoLock.update http.newResponse r p) s = Done (w', s')
                    /\ data s' !! "second" = data s !! "second").
Proof.
  intros r p s.
  apply (update_leaves_other_keys http.newResponse r p s "second").
  - reflexivity.
  - vm_compute. discriminate.
Defined.

(** C10.  The handlers ignore the request: with the same path parameters,
    response writer and store, two calls with different requests run
    the same program, and so write the same response and leave the same
    store (or wait alike for the mutex). *)
Theorem handlers_ignore_request
  (w : http.ResponseWriter) (p : httprouter.Params) (s : store)
  (r1 r2 : http.Request) :
  (Rest.show w r1 p = Rest.show w r2 p
   /\ exec (Rest.show w r1 p) s = exec (Rest.show w r2 p) s)
  /\ (Rest.update w r1 p = Rest.update w r2 p
      /\ exec (Rest.update w r1 p) s = exec (Rest.update w r2 p) s)
  /\ (NoLock.show w r1 p = NoLock.show w r2 p
      /\ exec (NoLock.show w r1 p) s = exec (NoLock.show w r2 p) s)
  /\ (NoLock.update w r1 p = NoLock.update w r2 p
      /\ exec (NoLock.update w r1 p) s = exec (NoLock.update w r2 p) s).
Proof. repeat split. Qed.

(** C8.  Requests served concurrently by [rest.go], from a store nobody
    holds, the updates among them on distinct keys.  However the
    goroutines are scheduled: no unlock is ever fatal; at every moment a
    goroutine that is at an assignment to the map is alone at the map
    (one writer at a time, no reader beside a writer); once all handlers
    have returned, the entry of every update is in the map; the handlers
    can always be run to their end; and a run has at most three steps
    per request. *)
Theorem concurrent_updates_exclusive_none_lost
  (cs : list call) (sched : list nat) (s : store) :
  unlocked s ->
  NoDup (updateKeys cs) ->
  (forall msg, run sched (spawn restServer cs s) <> Fatal msg)
  /\ forall c, run sched (spawn restServer cs s) = Done c ->
       exclusive c
       /\ (finished c = true ->
           forall r p, In (CallUpdate r p) cs ->
                       data (shared c) !! keyOf p = Some (valueOf p))
       /\ (exists sched' c', run sched' c = Done c' /\ finished c' = true)
       /\ length sched <= 3 * length cs.
Proof.
  intros Hm Hnd.
  destruct (run_runInv cs sched (3 * length cs) (spawn restServer cs s) Hnd
              (runInv_spawn cs s Hm)) as [Hfatal Hdone].
  split; [exact Hfatal|].
  intros c Hrun. destruct (Hdone c Hrun) as [Hlen HI].
  pose proof HI as ([hs HL] & HW & _).
  split; [eapply lockInv_exclusive, HL|].
  split; [intros Hfin r p Hin; eapply writesInv_finished; eauto|].
  split; [eapply run_completes; eauto | exact Hlen].
Qed.

Lemma concurrent_updates_exclusive_none_lost_witness :
  let cs := [putEntry (curl "PUT" "/entry/a/1") "a" "1";
             putEntry (curl "PUT" "/entry/b/2") "b" "2";
             getList (curl "GET" "/list")] in
  let sched := [0; 0; 0; 2; 2; 2; 1; 1; 1] in
  exists c,
    run sched (spawn restServer cs s_init) = Done c
    /\ exclusive c
    /\ finished c = true
    /\ data (shared c) !! "a" = Some "1"
    /\ data (shared c) !! "b" = Some "2".
Proof.
  intros cs sched.
  assert (Hnd : NoDup (updateKeys cs)).
  { apply (bool_decide_unpack _). vm_compute. exact I. }
  destruct (concurrent_updates_exclusive_none_lost cs sched s_init eq_refl Hnd)
    as [_ H].
  destruct (run sched (spawn restServer cs s_init)) as [c| |] eqn:Hrun;
    [|vm_compute in Hrun; discriminate Hrun..].
  exists c. split; [reflexivity|].
  destruct (H c eq_refl) as (Hex & Hkept & _ & _).
  assert (Hfin : finished c = true).
  { vm_compute in Hrun. inversion Hrun; subst c. reflexivity. }
  split; [exact Hex|]. split; [exact Hfin|].
  split; [apply (Hkept Hfin (curl "PUT" "/entry/a/1")
                   [httprouter.mkParam "key" "a"; httprouter.mkParam "value" "1"])
         |apply (Hkept Hfin (curl "PUT" "/entry/b/2")
                   [httprouter.mkParam "key" "b"; httprouter.mkParam "value" "2"])];
    simpl; auto.
Defined.

(** The version without the lock does not have the exclusion: two updates
    are both at their assignment as soon as they are spawned. *)
Example nolock_updates_not_exclusive :
  ~ exclusive (spawn noLockServer
                 [putEntry (curl "PUT" "/entry/a/1") "a" "1";
                  putEntry (curl "PUT" "/entry/b/2") "b" "2"] s_init).
Proof.
  intros H.
  specialize (H 0 1 _ _ (ltac:(discriminate)) eq_refl eq_refl eq_refl).
  discriminate H.
Qed.

(** The scenario of the source's closing comment, on [rest.go]. *)
Example curl_scenario :
  exists s,
    serve restServer
      [putEntry (curl "PUT" "/entry/first/hello") "first" "hello";
       putEntry (curl "PUT" "/entry/second/hi") "second" "hi";
       getList (curl "GET" "/list");
       getEntry (curl "GET" "/entry/first") "first";
       getEntry (curl "GET" "/entry/second") "second"] s_init
    = Done ([http.mkResponseWriter 200 "Updated: s.data[first] = hello";
             http.mkResponseWriter 200 "Updated: s.data[second] = hi";
             http.mkResponseWriter 200 "Read list: map[first:hello second:hi]";
             http.mkResponseWriter 200 "Read entry: s.data[first] = hello";
             http.mkResponseWriter 200 "Read entry: s.data[second] = hi"], s).
Proof. eexists. vm_compute. reflexivity. Qed.

(* ================================================================= *)
(** * Further properties of the handlers *)

(** ** Requests served one after the other *)

Lemma behaves_either srv s :
  srv = restServer \/ srv = noLockServer -> unlocked s ->
  exists expr ok, behaves srv expr ok /\ ok s.
Proof.
  intros [-> | ->] Hm.
  - exists "s.data", unlocked. split; [apply rest_behaves | exact Hm].
  - exists "data", (fun _ => True). split; [apply nolock_behaves | exact I].
Qed.

Lemma serve_answers srv expr ok (B : behaves srv expr ok) cs : forall s,
  ok s ->
  exists ws,
    serve srv cs s = Done (ws, setData s (applyCalls cs (data s)))
    /\ length ws = length cs
    /\ Forall (fun w => http.status w = http.StatusOK) ws.
Proof.
  induction cs as [|c cs IH]; intros s H; simpl.
  - exists []. rewrite setData_data. repeat split. constructor.
  - destruct (IH (setData s (applyCall (data s) c))) as (ws & Hs & Hl & Hst).
    { now apply (ok_setData _ _ _ B). }
    destruct c as [r p|r p]; simpl in *.
    + rewrite (show_spec _ _ _ B) by exact H. rewrite setData_data in Hs. rewrite Hs.
      eexists (_ :: ws). split; [reflexivity|]. split; [simpl; now rewrite Hl|].
      constructor; [reflexivity | exact Hst].
    + rewrite (update_spec _ _ _ B) by exact H. rewrite Hs.
      eexists (_ :: ws). split; [reflexivity|]. split; [simpl; now rewrite Hl|].
      constructor; [reflexivity | exact Hst].
Qed.

(** X1.  Requests served one after the other never fail: from a store
    nobody holds, every sequence of requests is served to the end, with
    one answer per request, each with status 200, and the mutex is
    unlocked again afterwards.  There is no error answer. *)
Theorem serve_never_fails (srv : server) (cs : list call) (s : store) :
  srv = restServer \/ srv = noLockServer ->
  unlocked s ->
  exists ws s',
    serve srv cs s = Done (ws, s')
    /\ length ws = length cs
    /\ Forall (fun w => http.status w = http.StatusOK) ws
    /\ unlocked s'.
Proof.
  intros Hsrv Hm.
  destruct (behaves_either srv s Hsrv Hm) as (expr & ok & B & Hok).
  destruct (serve_answers srv expr ok B cs s Hok) as (ws & Hs & Hl & Hst).
  exists ws, (setData s (applyCalls cs (data s))).
  repeat split; assumption.
Qed.

Lemma serve_never_fails_witness :
  exists ws s',
    serve restServer [putEntry (curl "PUT" "/entry//") "" "";
                      getEntry (curl "GET" "/entry/none") "none";
                      getList (curl "GET" "/list")] s_init = Done (ws, s')
    /\ length ws = 3
    /\ Forall (fun w => http.status w = http.StatusOK) ws
    /\ unlocked s'.
Proof.
  exact (serve_never_fails restServer
           [putEntry (curl "PUT" "/entry//") "" "";
            getEntry (curl "GET" "/entry/none") "none";
            getList (curl "GET" "/list")] s_init (or_introl eq_refl) eq_refl).
Defined.

Lemma applyCalls_filter_updates cs : forall d,
  applyCalls (filter (fun c => isUpdate c = true) cs) d = applyCalls cs d.
Proof.
  induction cs as [|c cs IH]; intros d; [reflexivity|].
  destruct c as [r p|r p].
  - rewrite applyCalls_cons. simpl. apply IH.
  - rewrite filter_cons_True by reflexivity. rewrite !applyCalls_cons. apply IH.
Qed.

(** X2.  Reads leave no trace: a sequence of requests leaves the store
    that its updates alone, in the same order, leave. *)
Theorem serve_store_from_updates (srv : server) (cs : list call) (s : store) :
  srv = restServer \/ srv = noLockServer ->
  unlocked s ->
  exists ws ws' s',
    serve srv cs s = Done (ws, s')
    /\ serve srv (filter (fun c => isUpdate c = true) cs) s = Done (ws', s').
Proof.
  intros Hsrv Hm.
  destruct (behaves_either srv s Hsrv Hm) as (expr & ok & B & Hok).
  destruct (serve_spec srv expr ok B cs s Hok) as (ws & Hs & _).
  destruct (serve_spec srv expr ok B (filter (fun c => isUpdate c = true) cs) s Hok)
    as (ws' & Hs' & _).
  exists ws, ws', (setData s (applyCalls cs (data s))).
  split; [exact Hs|]. now rewrite Hs', applyCalls_filter_updates.
Qed.

Lemma serve_store_from_updates_witness :
  let r := curl "GET" "/list" in
  let u1 := putEntry (curl "PUT" "/entry/a/1") "a" "1" in
  let u2 := putEntry (curl "PUT" "/entry/b/2") "b" "2" in
  exists ws ws' s',
    serve restServer [getList r; u1; getEntry r "a"; u2; getList r] s_init = Done (ws, s')
    /\ serve restServer [u1; u2] s_init = Done (ws', s').
Proof.
  intros r u1 u2.
  apply (serve_store_from_updates restServer
           [getList r; u1; getEntry r "a"; u2; getList r] s_init);
    [now left | reflexivity].
Defined.

(** X3.  A later update of a key overwrites an earlier one: two updates
    of the same key leave the store the second alone leaves. *)
Theorem update_overwrites
  (srv : server) (r1 r2 : http.Request) (p1 p2 : httprouter.Params) (s : store) :
  srv = restServer \/ srv = noLockServer ->
  unlocked s ->
  keyOf p1 = keyOf p2 ->
  exists ws ws' s',
    serve srv [CallUpdate r1 p1; CallUpdate r2 p2] s = Done (ws, s')
    /\ serve srv [CallUpdate r2 p2] s = Done (ws', s')
    /\ data s' !! keyOf p1 = Some (valueOf p2).
Proof.
  intros Hsrv Hm Hk.
  destruct (behaves_either srv s Hsrv Hm) as (expr & ok & B & Hok).
  destruct (serve_spec srv expr ok B [CallUpdate r1 p1; CallUpdate r2 p2] s Hok)
    as (ws & Hs & _).
  destruct (serve_spec srv expr ok B [CallUpdate r2 p2] s Hok) as (ws' & Hs' & _).
  exists ws, ws', (setData s (applyCalls [CallUpdate r2 p2] (data s))).
  split; [|split; [exact Hs'|]].
  - rewrite Hs. do 2 f_equal. unfold applyCalls. simpl.
    rewrite Hk. now rewrite insert_insert_eq.
  - simpl. rewrite Hk. apply lookup_insert_eq.
Qed.

Lemma update_overwrites_witness :
  let r := curl "PUT" "/entry/first/x" in
  let p1 := [httprouter.mkParam "key" "first"; httprouter.mkParam "value" "hello"] in
  let p2 := [httprouter.mkParam "key" "first"; httprouter.mkParam "value" "bye"] in
  exists ws ws' s',
    serve restServer [CallUpdate r p1; CallUpdate r p2] s_init = Done (ws, s')
    /\ serve restServer [CallUpdate r p2] s_init = Done (ws', s')
    /\ data s' !! "first" = Some "bye".
Proof.
  intros r p1 p2.
  exact (update_overwrites restServer r r p1 p2 s_init (or_introl eq_refl) eq_refl eq_refl).
Defined.

(** X4.  Updates of different keys commute: served in either order they
    leave the same store. *)
Theorem updates_commute
  (srv : server) (r1 r2 : http.Request) (p1 p2 : httprouter.Params) (s : store) :
  srv = restServer \/ srv = noLockServer ->
  unlocked s ->
  keyOf p1 <> keyOf p2 ->
  exists ws ws' s',
    serve srv [CallUpdate r1 p1; CallUpdate r2 p2] s = Done (ws, s')
    /\ serve srv [CallUpdate r2 p2; CallUpdate r1 p1] s = Done (ws', s').
Proof.
  intros Hsrv Hm Hk.
  destruct (behaves_either srv s Hsrv Hm) as (expr & ok & B & Hok).
  destruct (serve_spec srv expr ok B [CallUpdate r1 p1; CallUpdate r2 p2] s Hok)
    as (ws & Hs & _).
  destruct (serve_spec srv expr ok B [CallUpdate r2 p2; CallUpdate r1 p1] s Hok)
    as (ws' & Hs' & _).
  exists ws, ws', (setData s (applyCalls [CallUpdate r1 p1; CallUpdate r2 p2] (data s))).
  split; [exact Hs|]. rewrite Hs'. unfold applyCalls. simpl.
  now rewrite (insert_insert_ne (data s) (keyOf p1) (keyOf p2)) by exact Hk.
Qed.

Lemma updates_commute_witness :
  let r := curl "PUT" "/entry/k/v" in
  let p1 := [httprouter.mkParam "key" "a"; httprouter.mkParam "value" "1"] in
  let p2 := [httprouter.mkParam "key" "b"; httprouter.mkParam "value" "2"] in
  exists ws ws' s',
    serve noLockServer [CallUpdate r p1; CallUpdate r p2] s_init = Done (ws, s')
    /\ serve noLockServer [CallUpdate r p2; CallUpdate r p1] s_init = Done (ws', s').
Proof.
  intros r p1 p2.
  apply (updates_commute noLockServer r r p1 p2 s_init);
    [now right | reflexivity | vm_compute; discriminate].
Defined.

Lemma sameAnswer_show p d :
  sameAnswer (http.Write http.newResponse (showBody "s.data" p d))
             (http.Write http.newResponse (showBody "data" p d)).
Proof.
  split; [reflexivity|]. unfold showBody.
  destruct (String.eqb (keyOf p) ""); [now left|].
  right. exists "Read entry: ", ("[" +:+ keyOf p +:+ "] = " +:+ default "" (d !! keyOf p)).
  split; reflexivity.
Qed.

Lemma sameAnswer_update k v :
  sameAnswer (http.Write http.newResponse (updated "s.data" k v))
             (http.Write http.newResponse (updated "data" k v)).
Proof.
  split; [reflexivity|].
  right. exists "Updated: ", ("[" +:+ k +:+ "] = " +:+ v). split; reflexivity.
Qed.

(** X5.  The two versions agree when requests come one after the other:
    on every sequence of requests they leave the same store and give
    answers that differ only in the expression printed, [s.data] in
    [rest.go] and [data] without the lock. *)
Theorem versions_agree (cs : list call) (s : store) :
  unlocked s ->
  exists ws1 ws2 s',
    serve restServer cs s = Done (ws1, s')
    /\ serve noLockServer cs s = Done (ws2, s')
    /\ Forall2 sameAnswer ws1 ws2.
Proof.
  revert s. induction cs as [|c cs IH]; intros s Hm.
  - exists [], [], s. repeat split. constructor.
  - destruct (IH (setData s (applyCall (data s) c)) Hm) as (ws1 & ws2 & s' & H1 & H2 & HF).
    destruct c as [r p|r p]; cbn [serve handle applyCall] in *.
    + rewrite (show_spec _ _ _ rest_behaves) by exact Hm.
      rewrite (show_spec _ _ _ nolock_behaves) by exact I.
      rewrite setData_data in H1, H2. rewrite H1, H2.
      eexists (_ :: ws1), (_ :: ws2), s'. split; [reflexivity|]. split; [reflexivity|].
      constructor; [apply sameAnswer_show | exact HF].
    + rewrite (update_spec _ _ _ rest_behaves) by exact Hm.
      rewrite (update_spec _ _ _ nolock_behaves) by exact I.
      rewrite H1, H2.
      eexists (_ :: ws1), (_ :: ws2), s'. split; [reflexivity|]. split; [reflexivity|].
      constructor; [apply sameAnswer_update | exact HF].
Qed.

Lemma versions_agree_witness :
  exists ws1 ws2 s',
    serve restServer [putEntry (curl "PUT" "/entry/a/1") "a" "1";
                      getEntry (curl "GET" "/entry/a") "a"] s_init = Done (ws1, s')
    /\ serve noLockServer [putEntry (curl "PUT" "/entry/a/1") "a" "1";
                           getEntry (curl "GET" "/entry/a") "a"] s_init = Done (ws2, s')
    /\ Forall2 sameAnswer ws1 ws2.
Proof.
  exact (versions_agree [putEntry (curl "PUT" "/entry/a/1") "a" "1";
                         getEntry (curl "GET" "/entry/a") "a"] s_init eq_refl).
Defined.

Lemma applyCalls_keeps_keys cs : forall d k,
  is_Some (d !! k) -> is_Some (applyCalls cs d !! k).
Proof.
  induction cs as [|c cs IH]; intros d k H; [exact H|].
  rewrite applyCalls_cons. apply IH.
  destruct c as [r p|r p]; simpl; [exact H|].
  destruct (decide (keyOf p = k)) as [->|Hne].
  - rewrite lookup_insert_eq. eauto.
  - now rewrite lookup_insert_ne.
Qed.

(** X6.  No request deletes an entry: a key that is in the store is still
    in the store after any sequence of requests. *)
Theorem serve_keeps_keys (srv : server) (cs : list call) (s : store) (k : string) :
  srv = restServer \/ srv = noLockServer ->
  unlocked s ->
  is_Some (data s !! k) ->
  exists ws s', serve srv cs s = Done (ws, s') /\ is_Some (data s' !! k).
Proof.
  intros Hsrv Hm Hk.
  destruct (behaves_either srv s Hsrv Hm) as (expr & ok & B & Hok).
  destruct (serve_spec srv expr ok B cs s Hok) as (ws & Hs & _).
  exists ws, (setData s (applyCalls cs (data s))). split; [exact Hs|].
  simpl. now apply applyCalls_keeps_keys.
Qed.

Lemma serve_keeps_keys_witness :
  let s := setData s_init {["first" := "hello"]} in
  exists ws s',
    serve restServer [putEntry (curl "PUT" "/entry/first/") "first" "";
                      putEntry (curl "PUT" "/entry/second/hi") "second" "hi"] s
    = Done (ws, s')
    /\ is_Some (data s' !! "first").
Proof.
  intros s.
  apply (serve_keeps_keys restServer _ s "first"); [now left | reflexivity |].
  vm_compute. eauto.
Defined.

Lemma ByName_missing p name :
  Forall (fun q => httprouter.Key q <> name) p -> httprouter.ByName p name = "".
Proof.
  induction 1 as [|q p Hq _ IH]; simpl; [reflexivity|].
  destruct (String.eqb_spec (httprouter.Key q) name); [contradiction | exact IH].
Qed.

Lemma Done_Write_inj w b1 b2 (s1 s2 : store) :
  Done (http.Write w b1, s1) = Done (http.Write w b2, s2) -> b1 = b2.
Proof.
  intros E. assert (Hw : http.Write w b1 = http.Write w b2) by congruence.
  apply (f_equal http.body) in Hw. simpl in Hw.
  now apply String.app_inj in Hw.
Qed.

(** X7.  [show] answers with the listing exactly when its key parameter
    is empty; it is whenever the parameters hold no key at all, as on the
    [/list] route. *)
Theorem show_lists_iff_no_key
  (w : http.ResponseWriter) (r : http.Request) (p : httprouter.Params) (s : store) :
  unlocked s ->
  (exec (Rest.show w r p) s = Done (http.Write w (readList (data s)), s)
   <-> keyOf p = "")
  /\ (exec (NoLock.show w r p) s = Done (http.Write w (readList (data s)), s)
      <-> keyOf p = "")
  /\ (Forall (fun q => httprouter.Key q <> "key") p -> keyOf p = "").
Proof.
  intros Hm. split; [|split].
  - split; [|now apply exec_rest_show_list].
    intros E. destruct (String.eqb_spec (keyOf p) "") as [Hk|Hk]; [exact Hk|].
    rewrite exec_rest_show_entry in E by assumption.
    apply Done_Write_inj in E. discriminate E.
  - split; [|now apply exec_nolock_show_list].
    intros E. destruct (String.eqb_spec (keyOf p) "") as [Hk|Hk]; [exact Hk|].
    rewrite exec_nolock_show_entry in E by assumption.
    apply Done_Write_inj in E. discriminate E.
  - apply ByName_missing.
Qed.

Lemma show_lists_iff_no_key_witness :
  let p := [httprouter.mkParam "value" "hello"] in
  let r := curl "GET" "/list" in
  exec (Rest.show http.newResponse r p) s_init
  = Done (http.Write http.newResponse (readList (data s_init)), s_init).
Proof.
  intros p r.
  destruct (show_lists_iff_no_key http.newResponse r p s_init eq_refl) as (H1 & _ & H3).
  apply H1, H3. repeat constructor. vm_compute. discriminate.
Defined.

(** X8.  How the handlers of [rest.go] meet a mutex that is held.
    [show] takes the read lock: beside any number of readers it answers
    and leaves the store, readers included, as it found it; while a
    writer holds the mutex it waits.  [update] takes the write lock: it
    waits while a writer or any reader holds the mutex. *)
Theorem handlers_wait_for_mutex
  (w : http.ResponseWriter) (r : http.Request) (p : httprouter.Params)
  (d : gmap string string) (n : nat) :
  let beside_readers := {| data := d; m := {| sync.writer := false; sync.readers := n |} |} in
  let beside_writer := {| data := d; m := {| sync.writer := true; sync.readers := n |} |} in
  let beside_reader := {| data := d; m := {| sync.writer := false; sync.readers := S n |} |} in
  exec (Rest.show w r p) beside_readers
  = Done (http.Write w (showBody "s.data" p d), beside_readers)
  /\ exec (Rest.show w r p) beside_writer = Blocked
  /\ exec (Rest.update w r p) beside_writer = Blocked
  /\ exec (Rest.update w r p) beside_reader = Blocked.
Proof.
  intros. unfold Rest.show, Rest.update, showBody. fold (keyOf p) (valueOf p).
  split; [|split; [|split]].
  - destruct (String.eqb (keyOf p) ""); cbn; unfold Fprintf.
    + now rewrite Sprintf_read_list.
    + now rewrite Sprintf_read_entry_rest.
  - now destruct (String.eqb (keyOf p) "").
  - reflexivity.
  - reflexivity.
Qed.

(** ** Requests served concurrently, whatever their keys *)

Lemma run_app sched1 sched2 : forall c,
  run (sched1 ++ sched2) c
  = match run sched1 c with
    | Done c' => run sched2 c'
    | Blocked => Blocked
    | Fatal msg => Fatal msg
    end.
Proof.
  induction sched1 as [|i sched1 IH]; intros c; simpl; [reflexivity|].
  destruct (step i c); [apply IH | reflexivity..].
Qed.

Lemma handle_rest_assigns call :
  assigns (allowed call) (handle restServer call)
  /\ forall r p, call = CallUpdate r p ->
       willAssign (keyOf p) (valueOf p) (handle restServer call).
Proof.
  destruct call as [r p|r p]; simpl.
  - split; [|discriminate].
    unfold Rest.show. destruct (String.eqb _ _); cbn; intuition.
  - split.
    + unfold Rest.update. cbn. intuition.
    + intros r' p' E. inversion E; subst.
      unfold Rest.update. cbn. right. intros _. now left.
Qed.

Lemma handle_rest_results call : results (answerOf call) (handle restServer call).
Proof.
  destruct call as [r p|r p]; unfold handle, answerOf; simpl.
  - unfold Rest.show. fold (keyOf p). destruct (String.eqb (keyOf p) "").
    + intros ? d ?. cbn. exists d. unfold Fprintf. now rewrite Sprintf_read_list.
    + intros ? x ?. cbn. exists x. unfold Fprintf. now rewrite Sprintf_read_entry_rest.
  - unfold Rest.update. fold (keyOf p) (valueOf p). intros ? ? ?. cbn.
    unfold Fprintf. now rewrite Sprintf_updated_rest.
Qed.

Lemma originInv_spawn cs s : originInv cs (data s) (spawn restServer cs s).
Proof.
  split; [|intros k v H; now left].
  unfold spawn. simpl. apply Forall2_fmap_r, Forall_Forall2_diag, Forall_forall.
  intros call _. destruct (handle_rest_assigns call) as [Ha Hw].
  split; [exact Ha|]. intros r p E. left. exact (Hw r p E).
Qed.

(** A step keeps the origin of the entries: the goroutine that moves
    assigns, if anything, the entry of its own update. *)
Lemma originInv_step cs d0 i c c' :
  originInv cs d0 c -> step i c = Done c' -> originInv cs d0 c'.
Proof.
  intros [HI HO] Hstep. unfold step in Hstep.
  destruct (goroutines c !! i) as [t|] eqn:Ht; [|discriminate].
  destruct t as [w|X a k]; [discriminate|].
  destruct (perform a (shared c)) as [[x s']| |] eqn:Hp; try discriminate.
  inversion Hstep; subst c'; clear Hstep.
  apply perform_data in Hp.
  apply Forall2_same_length_lookup in HI as [Hlen HI].
  destruct (lookup_lt_is_Some_2 cs i) as [ci Hci].
  { rewrite Hlen. eapply lookup_lt_Some, Ht. }
  destruct (HI i ci _ Hci Ht) as [Hai Hwi]. simpl in Hai. destruct Hai as [Hai Haik].
  assert (Hown : forall key v, assignment a = Some (key, v) ->
            exists ri pi, In (CallUpdate ri pi) cs /\ key = keyOf pi /\ v = valueOf pi).
  { intros key v Ea. rewrite Ea in Hai.
    destruct ci as [ri pi|ri pi]; simpl in Hai; [contradiction|].
    destruct Hai as [-> ->]. exists ri, pi. split; [|split; reflexivity].
    apply list_elem_of_In. eapply list_elem_of_lookup_2, Hci. }
  split; simpl.
  - apply Forall2_same_length_lookup. split; [now rewrite length_insert|].
    intros j cj tj Hcj Htj.
    assert (Hkeep : forall r p, cj = CallUpdate r p ->
              (exists r' p', In (CallUpdate r' p') cs /\ keyOf p' = keyOf p
                             /\ data (shared c) !! keyOf p = Some (valueOf p')) ->
              exists r' p', In (CallUpdate r' p') cs /\ keyOf p' = keyOf p
                            /\ data s' !! keyOf p = Some (valueOf p')).
    { intros r p _ (r' & p' & Hin & Hk & Hd). rewrite Hp.
      destruct (assignment a) as [[key v]|] eqn:Ea; [|eauto].
      destruct (decide (key = keyOf p)) as [->|Hne].
      - destruct (Hown _ _ eq_refl) as (ri & pi & Hini & Hki & ->).
        exists ri, pi. split; [exact Hini|]. split; [congruence|].
        apply lookup_insert_eq.
      - exists r', p'. split; [exact Hin|]. split; [exact Hk|].
        now rewrite lookup_insert_ne. }
    destruct (decide (i = j)) as [<-|Hij].
    + rewrite list_lookup_insert_eq in Htj by (eapply lookup_lt_Some, Ht).
      inversion Htj; subst tj. rewrite Hci in Hcj. inversion Hcj; subst cj.
      split; [apply Haik|].
      intros r p E. destruct (Hwi r p E) as [Hwill|Hin]; [|right; eapply Hkeep; eauto].
      simpl in Hwill. destruct Hwill as [Ea|Hk]; [|left; apply Hk].
      right. exists r, p. split; [|split; [reflexivity|]].
      * subst ci. apply list_elem_of_In. eapply list_elem_of_lookup_2, Hci.
      * rewrite Hp, Ea. apply lookup_insert_eq.
    + rewrite list_lookup_insert_ne in Htj by exact Hij.
      destruct (HI j cj tj Hcj Htj) as [Haj Hwj].
      split; [exact Haj|].
      intros r p E. destruct (Hwj r p E) as [Hwill|Hin]; [now left|].
      right. eapply Hkeep; eauto.
  - intros k0 v0. rewrite Hp.
    destruct (assignment a) as [[key v]|] eqn:Ea; [|apply HO].
    destruct (decide (key = k0)) as [->|Hne].
    + rewrite lookup_insert_eq. intros E; inversion E; subst v0.
      destruct (Hown _ _ eq_refl) as (ri & pi & Hini & Hki & Hvi).
      right. exists ri, pi. auto.
    + rewrite lookup_insert_ne by exact Hne. apply HO.
Qed.

Lemma results_step cs i c c' :
  Forall2 (fun call t => results (answerOf call) t) cs (goroutines c) ->
  step i c = Done c' ->
  Forall2 (fun call t => results (answerOf call) t) cs (goroutines c').
Proof.
  intros HF Hstep. unfold step in Hstep.
  destruct (goroutines c !! i) as [t|] eqn:Ht; [|discriminate].
  destruct t as [w|X a k]; [discriminate|].
  destruct (perform a (shared c)) as [[x s']| |]; try discriminate.
  inversion Hstep; subst c'; clear Hstep. simpl.
  destruct (Forall2_lookup_r _ _ _ _ _ HF Ht) as (ci & Hci & Hres).
  rewrite <- (list_insert_id cs i ci Hci).
  apply Forall2_insert; [exact HF | apply Hres].
Qed.

Lemma poolInv_spawn cs s :
  unlocked s -> poolInv cs (data s) (3 * length cs) (spawn restServer cs s).
Proof.
  intros Hm. split; [|split; [|split]].
  - eexists. now apply lockInv_spawn.
  - apply originInv_spawn.
  - unfold spawn. simpl. apply Forall2_fmap_r, Forall_Forall2_diag, Forall_forall.
    intros call _. apply handle_rest_results.
  - destruct (bounded_spawn cs s) as [HB Ht].
    eexists. split; [exact HB | lia].
Qed.

Lemma poolInv_step cs d0 budget i c c' :
  poolInv cs d0 (S budget) c -> step i c = Done c' -> poolInv cs d0 budget c'.
Proof.
  intros ([hs HL] & HO & HR & (ns & HB & Hle)) Hstep. split; [|split; [|split]].
  - eapply lockInv_step; eauto.
  - eapply originInv_step; eauto.
  - eapply results_step; eauto.
  - destruct (bounded_step ns i c c' HB Hstep) as (ns' & HB' & Hlt).
    exists ns'. split; [exact HB' | lia].
Qed.

Lemma poolInv_budget cs d0 i c c' :
  poolInv cs d0 0 c -> step i c <> Done c'.
Proof.
  intros (_ & _ & _ & (ns & HB & Hle)) Hstep.
  destruct (bounded_step ns i c c' HB Hstep) as (ns' & _ & Hlt). lia.
Qed.

Lemma run_poolInv cs d0 sched : forall budget c,
  poolInv cs d0 budget c ->
  (forall msg, run sched c <> Fatal msg)
  /\ forall c', run sched c = Done c' ->
       length sched <= budget /\ poolInv cs d0 (budget - length sched) c'.
Proof.
  induction sched as [|i sched IH]; intros budget c HI; simpl.
  - split; [discriminate|]. intros c' E. inversion E; subst.
    split; [lia|]. now rewrite Nat.sub_0_r.
  - destruct (step i c) as [c1| |msg] eqn:Hstep.
    + destruct budget as [|budget]; [exfalso; eapply poolInv_budget; eauto|].
      destruct (IH budget c1 (poolInv_step _ _ _ _ _ _ HI Hstep)) as [Hf Hd].
      split; [exact Hf|]. intros c' E. destruct (Hd c' E) as [Hl HI'].
      split; [lia | exact HI'].
    + split; discriminate.
    + exfalso. destruct HI as ([hs HL] & _). eapply lockInv_no_fatal; eauto.
Qed.

Lemma pool_completes cs d0 : forall budget c,
  poolInv cs d0 budget c ->
  exists sched c', run sched c = Done c' /\ finished c' = true.
Proof.
  induction budget as [|budget IH]; intros c HI;
    (destruct (finished c) eqn:Hfin; [exists [], c; now split|]);
    pose proof HI as ([hs HL] & _);
    destruct (lockInv_progress hs c HL Hfin) as (i & c1 & Hstep).
  - exfalso. eapply poolInv_budget; eauto.
  - destruct (IH c1 (poolInv_step _ _ _ _ _ _ HI Hstep)) as (sched & c' & Hr & Hf).
    exists (i :: sched), c'. simpl. rewrite Hstep. now split.
Qed.

(** Once every handler has returned, nobody holds the mutex. *)
Lemma lockInv_finished hs c :
  lockInv hs c -> finished c = true -> unlocked (shared c).
Proof.
  intros (HF & Hw & Hr & _) Hfin.
  assert (Hall : Forall (fun h => h = Free) hs).
  { unfold finished in Hfin. rewrite forallb_forall in Hfin.
    apply Forall_forall. intros h Hin.
    apply list_elem_of_lookup_1 in Hin as (i & Hh).
    destruct (Forall2_lookup_l _ _ _ _ _ HF Hh) as (t & Ht & Hfol).
    assert (Hret : returned t = true).
    { apply Hfin, list_elem_of_In. eapply list_elem_of_lookup_2, Ht. }
    destruct t; [exact Hfol | discriminate]. }
  assert (Zw : total holdsWrite hs = 0).
  { apply total_zero. eapply Forall_impl; [exact Hall|]. now intros h ->. }
  assert (Zr : total holdsRead hs = 0).
  { apply total_zero. eapply Forall_impl; [exact Hall|]. now intros h ->. }
  unfold unlocked. destruct (m (shared c)) as [wr rd]. simpl in *.
  rewrite Zw in Hw. rewrite Zr in Hr. subst rd.
  destruct wr; [discriminate | reflexivity].
Qed.

(** X9.  The mutex discipline of [rest.go] does not depend on the keys:
    for any requests served concurrently, updates of the same key
    included, and any schedule, no unlock is fatal, a goroutine at an
    assignment to the map is alone at the map, the handlers can always
    be run to their end, and a run has at most three steps per request. *)
Theorem pool_safe_for_any_keys (cs : list call) (sched : list nat) (s : store) :
  unlocked s ->
  (forall msg, run sched (spawn restServer cs s) <> Fatal msg)
  /\ forall c, run sched (spawn restServer cs s) = Done c ->
       exclusive c
       /\ (exists sched' c', run sched' c = Done c' /\ finished c' = true)
       /\ length sched <= 3 * length cs.
Proof.
  intros Hm.
  destruct (run_poolInv cs (data s) sched _ _ (poolInv_spawn cs s Hm)) as [Hf Hd].
  split; [exact Hf|]. intros c Hrun. destruct (Hd c Hrun) as [Hlen HI].
  pose proof HI as ([hs HL] & _).
  split; [eapply lockInv_exclusive, HL|].
  split; [eapply pool_completes, HI | exact Hlen].
Qed.

(** X10.  No lock is left behind: once all handlers of a concurrent run
    have returned, the mutex is unlocked, with no writer and no reader. *)
Theorem pool_releases_mutex (cs : list call) (sched : list nat) (s : store)
  (c : config) :
  unlocked s ->
  run sched (spawn restServer cs s) = Done c ->
  finished c = true ->
  unlocked (shared c).
Proof.
  intros Hm Hrun Hfin.
  destruct (run_poolInv cs (data s) sched _ _ (poolInv_spawn cs s Hm)) as [_ Hd].
  destruct (Hd c Hrun) as [_ ([hs HL] & _)].
  eapply lockInv_finished; eauto.
Qed.

(** X11.  Nothing is invented and, among concurrent updates of one key,
    one of them wins.  At every moment of a concurrent run every entry
    of the map was there at the start or is the entry of one of the
    updates; and once all handlers have returned, the key of every
    update holds the value of an update of that key. *)
Theorem pool_entries_come_from_updates (cs : list call) (sched : list nat)
  (s : store) (c : config) :
  unlocked s ->
  run sched (spawn restServer cs s) = Done c ->
  (forall k v, data (shared c) !! k = Some v ->
     data s !! k = Some v
     \/ exists r p, In (CallUpdate r p) cs /\ keyOf p = k /\ valueOf p = v)
  /\ (finished c = true ->
      forall r p, In (CallUpdate r p) cs ->
        exists r' p', In (CallUpdate r' p') cs /\ keyOf p' = keyOf p
                      /\ data (shared c) !! keyOf p = Some (valueOf p')).
Proof.
  intros Hm Hrun.
  destruct (run_poolInv cs (data s) sched _ _ (poolInv_spawn cs s Hm)) as [_ Hd].
  destruct (Hd c Hrun) as [_ (_ & [HI HO] & _)].
  split; [exact HO|].
  intros Hfin r p Hin.
  apply list_elem_of_In, list_elem_of_lookup_1 in Hin as (i & Hi).
  destruct (Forall2_lookup_l _ _ _ _ _ HI Hi) as (t & Ht & _ & Hw).
  destruct (Hw r p eq_refl) as [Hwill|Hdone]; [|exact Hdone].
  unfold finished in Hfin. rewrite forallb_forall in Hfin.
  assert (Hret : returned t = true).
  { apply Hfin, list_elem_of_In. eapply list_elem_of_lookup_2, Ht. }
  destruct t; [contradiction | discriminate].
Qed.

(** X12.  The answer to a request does not depend on the schedule in its
    shape, and the answer to an update not at all: in every concurrent
    run, a handler of [update] that has returned has answered
    [Updated: s.data[k] = v] with status 200, and a handler of [show]
    has answered with a listing or, for a key that is not empty, with an
    entry of that key. *)
Theorem pool_answers (cs : list call) (sched : list nat) (s : store) (c : config)
  (i : nat) (call : call) (w : http.ResponseWriter) :
  unlocked s ->
  run sched (spawn restServer cs s) = Done c ->
  cs !! i = Some call ->
  goroutines c !! i = Some (Ret w) ->
  answerOf call w /\ http.status w = http.StatusOK.
Proof.
  intros Hm Hrun Hi Ht.
  destruct (run_poolInv cs (data s) sched _ _ (poolInv_spawn cs s Hm)) as [_ Hd].
  destruct (Hd c Hrun) as [_ (_ & _ & HR & _)].
  destruct (Forall2_lookup_l _ _ _ _ _ HR Hi) as (t & Ht' & Hres).
  rewrite Ht in Ht'. inversion Ht'; subst t. simpl in Hres.
  split; [exact Hres|].
  destruct call as [r p|r p]; simpl in Hres.
  - destruct (String.eqb (keyOf p) ""); destruct Hres as [x ->]; reflexivity.
  - now subst w.
Qed.

Lemma pool_witness_run :
  let cs := [putEntry (curl "PUT" "/entry/a/1") "a" "1";
             putEntry (curl "PUT" "/entry/a/2") "a" "2"] in
  exists c, run [1; 1; 1; 0; 0; 0] (spawn restServer cs s_init) = Done c
            /\ finished c = true
            /\ goroutines c !! 0
               = Some (Ret (http.Write http.newResponse "Updated: s.data[a] = 1")).
Proof. eexists. repeat split; vm_compute; reflexivity. Defined.

Lemma pool_safe_for_any_keys_witness :
  exists c, finished c = true /\ exclusive c.
Proof.
  destruct pool_witness_run as (c & Hrun & Hfin & _).
  exists c. split; [exact Hfin|].
  exact (proj1 (proj2 (pool_safe_for_any_keys _ _ s_init eq_refl) c Hrun)).
Defined.

Lemma pool_releases_mutex_witness :
  exists c, finished c = true /\ unlocked (shared c).
Proof.
  destruct pool_witness_run as (c & Hrun & Hfin & _).
  exists c. split; [exact Hfin|].
  exact (pool_releases_mutex _ _ s_init c eq_refl Hrun Hfin).
Defined.

Lemma pool_entries_come_from_updates_witness :
  exists c, finished c = true
    /\ forall k v, data (shared c) !! k = Some v ->
         data s_init !! k = Some v
         \/ exists r p,
              In (CallUpdate r p)
                 [putEntry (curl "PUT" "/entry/a/1") "a" "1";
                  putEntry (curl "PUT" "/entry/a/2") "a" "2"]
              /\ keyOf p = k /\ valueOf p = v.
Proof.
  destruct pool_witness_run as (c & Hrun & Hfin & _).
  exists c. split; [exact Hfin|].
  exact (proj1 (pool_entries_come_from_updates _ _ s_init c eq_refl Hrun)).
Defined.

Lemma pool_answers_witness :
  exists w, answerOf (putEntry (curl "PUT" "/entry/a/1") "a" "1") w
            /\ http.status w = http.StatusOK.
Proof.
  destruct pool_witness_run as (c & Hrun & _ & Ht).
  eexists.
  exact (pool_answers _ _ s_init c 0 _ _ eq_refl Hrun eq_refl Ht).
Defined.

Lemma show_takes_read_lock w r p :
  exists k : unit -> prog http.ResponseWriter,
    Rest.show w r p = Act RLock k /\ nextAccess (k tt) = Some Reads.
Proof.
  unfold Rest.show. destruct (String.eqb _ _); eexists; split; reflexivity.
Qed.

Lemma readers_enter cs s :
  unlocked s ->
  forallb (fun c => negb (isUpdate c)) cs = true ->
  forall n, n <= length cs ->
    exists c,
      run (seq 0 n) (spawn restServer cs s) = Done c
      /\ shared c = setM s {| sync.writer := false; sync.readers := n |}
      /\ length (goroutines c) = length cs
      /\ (forall j t, j < n -> goroutines c !! j = Some t -> nextAccess t = Some Reads)
      /\ (forall j, n <= j -> goroutines c !! j = (handle restServer <$> cs) !! j).
Proof.
  intros Hm Hshows. induction n as [|n IH]; intros Hn.
  - exists (spawn restServer cs s). simpl. split; [reflexivity|].
    split; [destruct s as [d mu]; unfold unlocked in Hm; simpl in *; now subst|].
    split; [now rewrite length_fmap|]. split; [intros; lia | reflexivity].
  - destruct IH as (c & Hrun & Hsh & Hlen & Hlow & Hhigh); [lia|].
    destruct (lookup_lt_is_Some_2 cs n) as [call Hcall]; [lia|].
    assert (Hshow : exists r p, call = CallShow r p).
    { rewrite forallb_forall in Hshows.
      assert (Hc : negb (isUpdate call) = true).
      { apply Hshows, list_elem_of_In. eapply list_elem_of_lookup_2, Hcall. }
      destruct call as [r p|r p]; [eauto | discriminate]. }
    destruct Hshow as (r & p & ->).
    destruct (show_takes_read_lock http.newResponse r p) as (k & Hk & Hacc).
    assert (Ht : goroutines c !! n = Some (Act RLock k)).
    { rewrite Hhigh by lia. rewrite list_lookup_fmap, Hcall. simpl. now rewrite Hk. }
    exists {| shared := setM s {| sync.writer := false; sync.readers := S n |};
              goroutines := <[n := k tt]> (goroutines c) |}.
    split; [|split; [reflexivity|split; [simpl; now rewrite length_insert|split]]].
    + rewrite seq_S, run_app, Hrun. simpl. unfold step. rewrite Ht, Hsh. reflexivity.
    + intros j t Hj. simpl. destruct (decide (n = j)) as [<-|Hne].
      * rewrite list_lookup_insert_eq by (rewrite Hlen; lia).
        intros E; inversion E; subst t. exact Hacc.
      * rewrite list_lookup_insert_ne by exact Hne. apply Hlow. lia.
    + intros j Hj. simpl. rewrite list_lookup_insert_ne by lia. apply Hhigh. lia.
Qed.

(** X13.  Reads share the mutex: any number of [show] requests served
    concurrently can all hold the read lock at once, each of them at its
    read of the map. *)
Theorem shows_read_side_by_side (cs : list call) (s : store) :
  unlocked s ->
  forallb (fun c => negb (isUpdate c)) cs = true ->
  exists c,
    run (seq 0 (length cs)) (spawn restServer cs s) = Done c
    /\ sync.readers (m (shared c)) = length cs
    /\ Forall (fun t => nextAccess t = Some Reads) (goroutines c).
Proof.
  intros Hm Hshows.
  destruct (readers_enter cs s Hm Hshows (length cs) (le_n _))
    as (c & Hrun & Hsh & Hlen & Hlow & _).
  exists c. split; [exact Hrun|]. split; [now rewrite Hsh|].
  apply Forall_lookup. intros j t Ht. apply (Hlow j t); [|exact Ht].
  rewrite <- Hlen. eapply lookup_lt_Some, Ht.
Qed.

Lemma shows_read_side_by_side_witness :
  let cs := [getList (curl "GET" "/list");
             getEntry (curl "GET" "/entry/a") "a";
             getList (curl "GET" "/list")] in
  exists c,
    run [0; 1; 2] (spawn restServer cs s_init) = Done c
    /\ sync.readers (m (shared c)) = 3
    /\ Forall (fun t => nextAccess t = Some Reads) (goroutines c).
Proof.
  intros cs. exact (shows_read_side_by_side cs s_init eq_refl eq_refl).
Defined.

(** X14.  The version without the lock has no exclusion: as soon as an
    update and any other request are served concurrently, the update is
    at its assignment to the map while the other request is at an access
    of the map. *)
Theorem nolock_pool_races (cs : list call) (s : store) (i j : nat)
  (r : http.Request) (p : httprouter.Params) (other : call) :
  i <> j ->
  cs !! i = Some (CallUpdate r p) ->
  cs !! j = Some other ->
  ~ exclusive (spawn noLockServer cs s).
Proof.
  intros Hij Hi Hj Hex.
  specialize (Hex i j (handle noLockServer (CallUpdate r p)) (handle noLockServer other) Hij).
  unfold spawn in Hex. simpl in Hex. rewrite !list_lookup_fmap, Hi, Hj in Hex.
  specialize (Hex eq_refl eq_refl eq_refl).
  destruct other as [r' p'|r' p']; simpl in Hex.
  - unfold NoLock.show in Hex. destruct (String.eqb _ _); discriminate Hex.
  - discriminate Hex.
Qed.

Lemma nolock_pool_races_witness :
  ~ exclusive (spawn noLockServer
                 [getEntry (curl "GET" "/entry/a") "a";
                  putEntry (curl "PUT" "/entry/a/1") "a" "1"] s_init).
Proof.
  apply (nolock_pool_races _ s_init 1 0 (curl "PUT" "/entry/a/1")
           [httprouter.mkParam "key" "a"; httprouter.mkParam "value" "1"]
           (getEntry (curl "GET" "/entry/a") "a"));
    [discriminate | reflexivity | reflexivity].
Defined.

(** ** Concurrent requests are served as if in some order *)

Lemma serve_exact_behaves srv ok (B : behaves srv "s.data" ok) cs : forall s,
  ok s ->
  serve srv cs s = Done (answers cs (data s), setData s (applyCalls cs (data s))).
Proof.
  induction cs as [|c cs IH]; intros s Hm.
  - simpl. now rewrite setData_data.
  - rewrite applyCalls_cons. cbn [serve answers].
    destruct c as [r p|r p]; cbn [handle applyCall].
    + rewrite (show_spec _ _ _ B) by exact Hm. now rewrite (IH s Hm).
    + rewrite (update_spec _ _ _ B) by exact Hm.
      rewrite IH by (now apply (ok_setData _ _ _ B)). reflexivity.
Qed.

Lemma serve_exact cs s :
  unlocked s ->
  serve restServer cs s
  = Done (answers cs (data s), setData s (applyCalls cs (data s))).
Proof. apply (serve_exact_behaves restServer unlocked rest_behaves). Qed.

Lemma answers_lookup cs : forall d n c,
  cs !! n = Some c ->
  answers cs d !! n = Some (seqAnswer c (applyCalls (take n cs) d)).
Proof.
  induction cs as [|c0 cs IH]; intros d n c H; [discriminate|].
  destruct n as [|n].
  - simpl in *. now inversion H.
  - change (answers cs (applyCall d c0) !! n
            = Some (seqAnswer c (applyCalls (take n cs) (applyCall d c0)))).
    now apply IH.
Qed.

Lemma perform_no_access {X : Type} (a : action X) s x s' :
  accessOf a = None -> perform a s = Done (x, s') -> data s' = data s.
Proof.
  intros Ha Hp. apply perform_data in Hp. rewrite Hp.
  destruct a; simpl in *; try reflexivity; discriminate.
Qed.

(** Each handler of [rest.go] takes effect at its one access of the
    map, under the mutex. *)
Lemma handle_rest_linearizes call :
  linearizes (seqAnswer call) (fun d => applyCall d call) (handle restServer call).
Proof.
  destruct call as [r p|r p]; unfold handle, seqAnswer; simpl.
  - unfold Rest.show, showBody. fold (keyOf p).
    destruct (String.eqb (keyOf p) ""); intros _ s x s' Hp;
      simpl in Hp; inversion Hp; subst; (split; [reflexivity|]);
      cbn; (split; [reflexivity|]); intros _; unfold Fprintf.
    + now rewrite Sprintf_read_list.
    + now rewrite Sprintf_read_entry_rest.
  - unfold Rest.update. fold (keyOf p) (valueOf p).
    intros _ s x s' Hp. simpl in Hp. inversion Hp; subst. split; [reflexivity|].
    cbn. split; [reflexivity|]. intros _. unfold Fprintf.
    now rewrite Sprintf_updated_rest.
Qed.

Lemma callAt_lookup cs i c : cs !! i = Some c -> callAt cs i = c.
Proof. intros H. unfold callAt. now rewrite H. Qed.

Lemma linInv_spawn cs s : linInv cs (data s) [] (spawn restServer cs s).
Proof.
  split; [constructor|]. split; [constructor|].
  split; [unfold spawn; simpl; now rewrite length_fmap|].
  split; [reflexivity|].
  intros i t Ht. left. split; [apply not_elem_of_nil|].
  unfold spawn in Ht. simpl in Ht. rewrite list_lookup_fmap in Ht.
  destruct (cs !! i) as [c|] eqn:Hc; [|discriminate].
  simpl in Ht. inversion Ht; subst t. rewrite (callAt_lookup _ _ _ Hc).
  apply handle_rest_linearizes.
Qed.

(** A step keeps the log: an action on the mutex changes nothing, an
    access of the map puts the goroutine at the end of the log. *)
Lemma linInv_step cs d0 log i c c' :
  linInv cs d0 log c -> step i c = Done c' ->
  exists log', linInv cs d0 log' c'.
Proof.
  intros (Hnd & Hbd & Hlen & Hdata & Hth) Hstep. unfold step in Hstep.
  destruct (goroutines c !! i) as [t|] eqn:Ht; [|discriminate].
  destruct t as [w|X a k]; [discriminate|].
  destruct (perform a (shared c)) as [[x s']| |] eqn:Hp; try discriminate.
  inversion Hstep; subst c'; clear Hstep.
  assert (Hi : i < length (goroutines c)) by (eapply lookup_lt_Some, Ht).
  destruct (accessOf a) as [acc|] eqn:Hacc.
  - (* the access of the map of goroutine [i] *)
    destruct (Hth i _ Ht) as [[Hnin Hlin]|(n & _ & Hq)];
      [|simpl in Hq; destruct Hq as [Hq _]; congruence].
    simpl in Hlin. rewrite Hacc in Hlin.
    destruct (Hlin _ _ _ Hp) as [Heff Hquiet].
    exists (log ++ [i]). split; [|split; [|split; [|split]]]; simpl.
    + apply NoDup_app. split; [exact Hnd|]. split; [|apply NoDup_singleton].
      intros y Hy Hy'. apply list_elem_of_singleton in Hy'. now subst y.
    + apply Forall_app. split; [exact Hbd|]. constructor; [lia | constructor].
    + now rewrite length_insert.
    + rewrite Heff, Hdata, fmap_app, applyCalls_app. reflexivity.
    + intros j tj Htj. destruct (decide (i = j)) as [<-|Hij].
      * rewrite list_lookup_insert_eq in Htj by exact Hi.
        inversion Htj; subst tj. right. exists (length log).
        split; [apply list_lookup_middle; reflexivity|].
        rewrite take_app_length. rewrite <- Hdata. exact Hquiet.
      * rewrite list_lookup_insert_ne in Htj by exact Hij.
        destruct (Hth j tj Htj) as [[Hnin' Hlin']|(n & Hn & Hq)].
        -- left. split; [|exact Hlin'].
           rewrite elem_of_app, list_elem_of_singleton. intros [?|?]; congruence.
        -- right. exists n. split; [now apply lookup_app_l_Some|].
           rewrite take_app_le by (apply Nat.lt_le_incl; eapply lookup_lt_Some, Hn).
           exact Hq.
  - (* an action on the mutex *)
    exists log. split; [exact Hnd|]. split; [exact Hbd|].
    split; [simpl; now rewrite length_insert|].
    split; [simpl; now rewrite (perform_no_access a _ _ _ Hacc Hp)|].
    simpl. intros j tj Htj. destruct (decide (i = j)) as [<-|Hij].
    + rewrite list_lookup_insert_eq in Htj by exact Hi.
      inversion Htj; subst tj.
      destruct (Hth i _ Ht) as [[Hnin Hlin]|(n & Hn & Hq)].
      * left. split; [exact Hnin|]. simpl in Hlin. rewrite Hacc in Hlin. apply Hlin.
      * right. exists n. split; [exact Hn|]. simpl in Hq. apply Hq.
    + rewrite list_lookup_insert_ne in Htj by exact Hij. now apply Hth.
Qed.

Lemma run_linInv cs d0 sched : forall log c c',
  linInv cs d0 log c -> run sched c = Done c' -> exists log', linInv cs d0 log' c'.
Proof.
  induction sched as [|i sched IH]; intros log c c' HI Hrun; simpl in Hrun.
  - inversion Hrun; subst. eauto.
  - destruct (step i c) as [c1| |] eqn:Hstep; try discriminate.
    destruct (linInv_step _ _ _ _ _ _ HI Hstep) as (log1 & HI1). eauto.
Qed.

(** X15.  Concurrent requests are served as if one after the other.  For
    every concurrent run of [rest.go] in which all handlers have
    returned there is an order of the requests such that serving them
    alone, one after the other in that order, leaves the very store the
    run has left and gives every request the very answer its goroutine
    has returned. *)
Theorem concurrent_run_in_some_order
  (cs : list call) (sched : list nat) (s : store) (c : config) :
  unlocked s ->
  run sched (spawn restServer cs s) = Done c ->
  finished c = true ->
  exists order ws,
    Permutation order (seq 0 (length cs))
    /\ serve restServer (callAt cs <$> order) s = Done (ws, shared c)
    /\ forall n i, order !! n = Some i ->
         exists w, ws !! n = Some w /\ goroutines c !! i = Some (Ret w).
Proof.
  intros Hm Hrun Hfin.
  destruct (run_linInv cs (data s) sched [] _ c (linInv_spawn cs s) Hrun)
    as (log & Hnd & Hbd & Hlen & Hdata & Hth).
  destruct (run_poolInv cs (data s) sched _ _ (poolInv_spawn cs s Hm)) as [_ Hd].
  destruct (Hd c Hrun) as [_ ([hs HL] & _)].
  pose proof (lockInv_finished hs c HL Hfin) as Hunl.
  assert (Hret : forall i t, goroutines c !! i = Some t -> exists w, t = Ret w).
  { intros i t Ht. unfold finished in Hfin. rewrite forallb_forall in Hfin.
    assert (Hr : returned t = true).
    { apply Hfin, list_elem_of_In. eapply list_elem_of_lookup_2, Ht. }
    destruct t as [w|]; [eauto | discriminate]. }
  assert (Hlogged : forall i w, goroutines c !! i = Some (Ret w) ->
            exists n, log !! n = Some i
              /\ w = seqAnswer (callAt cs i)
                       (applyCalls (callAt cs <$> take n log) (data s))).
  { intros i w Ht. destruct (Hth i _ Ht) as [[_ []]|(n & Hn & Hq)].
    exists n. split; [exact Hn | exact Hq]. }
  exists log, (answers (callAt cs <$> log) (data s)).
  split; [|split].
  - apply NoDup_Permutation; [exact Hnd | apply NoDup_seq|].
    intros i. rewrite elem_of_seq. split.
    + intros Hin. rewrite Forall_forall in Hbd. specialize (Hbd i Hin). lia.
    + intros [_ Hi]. destruct (lookup_lt_is_Some_2 (goroutines c) i) as [t Ht]; [lia|].
      destruct (Hret i t Ht) as [w ->].
      destruct (Hlogged i w Ht) as (n & Hn & _).
      eapply list_elem_of_lookup_2, Hn.
  - rewrite serve_exact by exact Hm. do 2 f_equal.
    destruct (shared c) as [d mu]. unfold unlocked in *. simpl in *.
    subst. unfold setData. simpl. now rewrite Hm.
  - intros n i Hn.
    assert (Hi : i < length cs).
    { rewrite Forall_forall in Hbd. apply Hbd. eapply list_elem_of_lookup_2, Hn. }
    destruct (lookup_lt_is_Some_2 (goroutines c) i) as [t Ht]; [lia|].
    destruct (Hret i t Ht) as [w ->].
    exists w. split; [|exact Ht].
    destruct (Hlogged i w Ht) as (n' & Hn' & ->).
    assert (n' = n) as -> by (eapply NoDup_lookup; eauto).
    rewrite (answers_lookup _ _ n (callAt cs i))
      by (now rewrite list_lookup_fmap, Hn).
    now rewrite fmap_take.
Qed.

Lemma concurrent_run_in_some_order_witness :
  let cs := [putEntry (curl "PUT" "/entry/a/1") "a" "1";
             putEntry (curl "PUT" "/entry/a/2") "a" "2"] in
  exists c order ws,
    finished c = true
    /\ Permutation order [0; 1]
    /\ serve restServer (callAt cs <$> order) s_init = Done (ws, shared c)
    /\ forall n i, order !! n = Some i ->
         exists w, ws !! n = Some w /\ goroutines c !! i = Some (Ret w).
Proof.
  intros cs.
  destruct pool_witness_run as (c & Hrun & Hfin & _).
  destruct (concurrent_run_in_some_order cs _ s_init c eq_refl Hrun Hfin)
    as (order & ws & H).
  exists c, order, ws. split; [exact Hfin | exact H].
Defined.
